(** * plothere.py: isoline plotting helpers

    A shallow embedding of the pure parts of [plothere.py] and the properties
    of its extent computation, unit handling, annulus construction and scale
    bar sizing.

    Numbers are IEEE binary64 values ([PrimFloat.float]), the type behind
    Python's [float] and numpy's [float64]; Python exceptions are the left
    summand of ExtLib's error monad [sum exn]. *)

From Stdlib Require Import ZArith QArith Qpower Qround Qabs Lqa.
From Stdlib Require Import List String Ascii DecimalString Bool Lia Floats.
From Stdlib Require Import Sorted Permutation.
From ExtLib Require Import Structures.Monad.
From ExtLib Require Import Data.Monads.EitherMonad.
Import ListNotations.
Import MonadNotation.

Set Warnings "-inexact-float".
Local Open Scope monad_scope.

(** ** The Python runtime *)

Module Py.

(** The exceptions the modelled code can raise. *)
Inductive exn : Set :=
| IndexError
| ValueError
| OverflowError
| RecursionError
| UnboundLocalError
| KeyError.

Definition result : Type -> Type := sum exn.

#[global] Instance Monad_result : Monad result := Monad_either exn.

Definition Ok {A : Type} (a : A) : result A := inr a.
Definition Raise {A : Type} (e : exn) : result A := inl e.

(** A Python number: an [int] or a [float]. *)
Inductive number : Set :=
| PyFloat (x : float)
| PyInt (z : Z).

(** [xs[i]] for [0 <= i]. *)
Definition getitem {A : Type} (xs : list A) (i : nat) : result A :=
  match nth_error xs i with
  | Some x => Ok x
  | None => Raise IndexError
  end.

(** [s.lower()] on ASCII text. *)
Definition lower_char (c : ascii) : ascii :=
  let n := nat_of_ascii c in
  if (65 <=? n)%nat && (n <=? 90)%nat then ascii_of_nat (n + 32) else c.

Fixpoint lower (s : string) : string :=
  match s with
  | EmptyString => EmptyString
  | String c rest => String (lower_char c) (lower rest)
  end.

(** [s in [...]] for a list of string literals. *)
Definition str_in (s : string) (l : list string) : bool :=
  existsb (String.eqb s) l.

(** [for x in xs: acc = body(acc, x)], stopping at the first exception. *)
Fixpoint for_each {A S : Type} (body : S -> A -> result S) (xs : list A) (s : S)
  : result S :=
  match xs with
  | [] => Ok s
  | x :: rest => s' <- body s x ;; for_each body rest s'
  end.

(** [[f(x) for x in xs]], stopping at the first exception. *)
Fixpoint comprehension {A B : Type} (f : A -> result B) (xs : list A)
  : result (list B) :=
  match xs with
  | [] => Ok []
  | x :: rest => y <- f x ;; ys <- comprehension f rest ;; Ok (y :: ys)
  end.

End Py.

Import Py.

(** ** Binary64 values and decimal numerals *)

Module F64.

(** The rational a finite float stands for; [None] for NaN and the
    infinities. *)
Definition to_Q (x : float) : option Q :=
  match Prim2SF x with
  | S754_zero _ => Some 0%Q
  | S754_finite s m e => Some (inject_Z (cond_Zopp s (Zpos m)) * Qpower 2 e)%Q
  | S754_infinity _ => None
  | S754_nan => None
  end.

(** The float nearest to an integer (ties to even), as C's conversion from
    an integer does. *)
Definition of_Z (z : Z) : float :=
  SF2Prim (binary_normalize prec emax z 0 false).

(** The float nearest to a rational (ties to even), as a correctly rounded
    [strtod] does on a decimal numeral.  The quotient is taken with at
    least 63 bits and a sticky bit for the remainder, which rounds as the
    exact quotient does. *)
Definition of_Q (q : Q) : float :=
  let n := Qnum q in
  let d := Zpos (Qden q) in
  let a := Z.abs n in
  let sh := Z.max 0 (64 + Z.log2 d - Z.log2 a) in
  let M := (Z.shiftl a sh / d)%Z in
  let sticky := if (Z.shiftl a sh mod d =? 0)%Z then 0%Z else 1%Z in
  let M' := (2 * M + sticky)%Z in
  SF2Prim (binary_normalize prec emax
             (if (n <? 0)%Z then - M' else M')%Z (- sh - 1) false).

Definition is_negative (x : float) : bool :=
  match Prim2SF x with
  | S754_zero s => s
  | S754_infinity s => s
  | S754_finite s _ _ => s
  | S754_nan => false
  end.

(** Search for the decade of a positive rational: the [k] with
    [10^k <= q < 10^(k+1)]. *)
Fixpoint decade_up (fuel : nat) (k : Z) (q : Q) : Z :=
  match fuel with
  | O => k
  | S fuel' =>
      if Qle_bool (Qpower 10 (k + 1)) q then decade_up fuel' (k + 1) q else k
  end.

Fixpoint decade_down (fuel : nat) (k : Z) (q : Q) : Z :=
  match fuel with
  | O => k
  | S fuel' =>
      if Qle_bool (Qpower 10 k) q then k else decade_down fuel' (k - 1) q
  end.

(** Every positive binary64 value lies between [10^-324] and [10^309]. *)
Definition decade (q : Q) : Z :=
  if Qle_bool 1 q then decade_up 400 0 q else decade_down 400 (-1) q.

(** Rounding a rational to an integer, ties to the even neighbour. *)
Definition round_half_even (q : Q) : Z :=
  let f := Qfloor q in
  match Qcompare (q - inject_Z f) (1 # 2) with
  | Lt => f
  | Gt => (f + 1)%Z
  | Eq => if Z.even f then f else (f + 1)%Z
  end.

End F64.

(** ** numpy arrays *)

Module Np.

(** A two-column array, one row per point.  The arrays of this program come
    from [np.array(list(...))] over pairs; built from an empty list such an
    array is one-dimensional, so selecting a column of it raises
    [IndexError]. *)
Definition ndarray2 : Set := list (float * float).

Definition column0 (a : ndarray2) : result (list float) :=
  match a with
  | [] => Raise IndexError
  | _ => Ok (map fst a)
  end.

Definition column1 (a : ndarray2) : result (list float) :=
  match a with
  | [] => Raise IndexError
  | _ => Ok (map snd a)
  end.

(** The element-wise kernels behind [np.max] and [np.min]: the left operand
    is kept when it is NaN or wins the comparison. *)
Definition maximum (a b : float) : float :=
  if (b <=? a)%float || is_nan a then a else b.

Definition minimum (a b : float) : float :=
  if (a <=? b)%float || is_nan a then a else b.

(** [np.max] and [np.min] reduce from the first element; an empty operand
    raises [ValueError]. *)
Definition max (a : list float) : result float :=
  match a with
  | [] => Raise ValueError
  | x :: rest => Ok (fold_left maximum rest x)
  end.

Definition min (a : list float) : result float :=
  match a with
  | [] => Raise ValueError
  | x :: rest => Ok (fold_left minimum rest x)
  end.

(** [np.floor] on a scalar: the greatest integer below a finite value, as a
    float; NaN, the infinities and the zeros are returned as they are. *)
Definition floor (x : float) : float :=
  match Prim2SF x with
  | S754_finite s m e =>
      F64.of_Z (Qfloor (inject_Z (cond_Zopp s (Zpos m)) * Qpower 2 e))
  | _ => x
  end.

Section WithLog10.

(** The value of [np.log10] at a positive finite float.  numpy hands the
    computation to the routine of the platform, which does not fix the
    last bits of the result: near a power of ten the result can be the
    exponent itself although the argument lies below the power. *)
Variable log10_finite : float -> float.

(** [np.log10] on a scalar: NaN below zero, [-inf] at zero. *)
Definition log10 (x : float) : float :=
  match Prim2SF x with
  | S754_nan => nan
  | S754_zero _ => neg_infinity
  | S754_infinity s => if s then nan else infinity
  | S754_finite s _ _ => if s then nan else log10_finite x
  end.

End WithLog10.

End Np.

(** ** find_extent *)

Module Extent.

(** The four running bounds of the scanning loop. *)
Record bounds : Set := Bounds {
  lon_max : float;
  lon_min : float;
  lat_max : float;
  lat_min : float
}.

(** [lon_max = -np.inf; lon_min = np.inf; lat_max = -np.inf; lat_min = np.inf] *)
Definition initial : bounds :=
  Bounds neg_infinity infinity neg_infinity infinity.

(** One iteration of [for Poly in all_poly].  The source evaluates each
    reduction once in the test and once more in the assignment; the two
    evaluations agree, so each is bound once here. *)
Definition scan_poly (b : bounds) (Poly : Np.ndarray2) : result bounds :=
  c0 <- Np.column0 Poly ;;
  m <- Np.max c0 ;;
  let b := if (lon_max b <? m)%float
           then Bounds m (lon_min b) (lat_max b) (lat_min b) else b in
  c0 <- Np.column0 Poly ;;
  m <- Np.min c0 ;;
  let b := if (m <? lon_min b)%float
           then Bounds (lon_max b) m (lat_max b) (lat_min b) else b in
  c1 <- Np.column1 Poly ;;
  m <- Np.max c1 ;;
  let b := if (lat_max b <? m)%float
           then Bounds (lon_max b) (lon_min b) m (lat_min b) else b in
  c1 <- Np.column1 Poly ;;
  m <- Np.min c1 ;;
  let b := if (m <? lat_min b)%float
           then Bounds (lon_max b) (lon_min b) (lat_max b) m else b in
  Ok b.

Definition scan (all_poly : list Np.ndarray2) : result bounds :=
  for_each scan_poly all_poly initial.

(** The statements after the loop. *)
Definition padded (b : bounds) (buffer : float) : list float :=
  let lon_buffer := (abs (lon_max b - lon_min b) * buffer)%float in
  let lat_buffer := (abs (lon_max b - lon_min b) * buffer)%float in
  let top := (lon_max b + lon_buffer)%float in
  let bottom := (lon_min b - lon_buffer)%float in
  let left := (lat_min b - lat_buffer)%float in
  let right := (lat_max b + lat_buffer)%float in
  [bottom; top; left; right].

Definition find_extent (all_poly : list Np.ndarray2) (buffer : float)
  : result (list float) :=
  b <- scan all_poly ;;
  Ok (padded b buffer).

End Extent.

(** ** Python builtins on floats *)

Module Builtin.

(** [int(x)]: truncation toward zero; NaN and the infinities are refused. *)
Definition int (x : float) : result Z :=
  match Prim2SF x with
  | S754_nan => Raise ValueError
  | S754_infinity _ => Raise OverflowError
  | S754_zero _ => Ok 0%Z
  | S754_finite s m e =>
      let q := (inject_Z (cond_Zopp s (Zpos m)) * Qpower 2 e)%Q in
      Ok (Z.quot (Qnum q) (Zpos (Qden q)))
  end.

(** [round(x, ndigits)] on a float: the exact value is rounded to a multiple
    of [10^-ndigits], ties to even, and the decimal numeral obtained is read
    back as the nearest float.  NaN and the infinities round to themselves;
    a zero result keeps the sign of [x]. *)
Definition round (x : float) (ndigits : Z) : result float :=
  match F64.to_Q x with
  | None => Ok x
  | Some q =>
      let k := F64.round_half_even (q * Qpower 10 ndigits) in
      if (k =? 0)%Z then Ok (0 * x)%float
      else
        let r := if (ndigits <=? 0)%Z
                 then F64.of_Z (k * 10 ^ (- ndigits))
                 else F64.of_Q (Qmake k (Z.to_pos (10 ^ ndigits))) in
        if is_infinity r then Raise OverflowError else Ok r
  end.

(** [10 ** n] coerced to a float, as the subtraction [x - 10 ** n] does: an
    integer power for [n >= 0], converted when it meets the float, and the
    float [pow(10.0, n)] for [n < 0], taken as correctly rounded. *)
Definition pow10 (n : Z) : result float :=
  if (0 <=? n)%Z then
    let r := F64.of_Z (10 ^ n) in
    if is_infinity r then Raise OverflowError else Ok r
  else Ok (F64.of_Q (Qmake 1 (Z.to_pos (10 ^ (- n))))).

(** Whether [t] lies in the rounding interval of the positive float
    [m * 2^e]: the reals that round to it.  The interval reaches half a unit
    in the last place to either side (a quarter below a power of two) and
    contains its end points when [m] is even. *)
Definition rounds_to (m : positive) (e : Z) (t : Q) : bool :=
  let u := (t / Qpower 2 e)%Q in
  let below := if (Zpos m =? 2 ^ 52)%Z && (-1074 <? e)%Z then (1 # 4)%Q else (1 # 2)%Q in
  let lo := (inject_Z (Zpos m) - below)%Q in
  let hi := (inject_Z (Zpos m) + (1 # 2))%Q in
  if Z.even (Zpos m)
  then Qle_bool lo u && Qle_bool u hi
  else negb (Qle_bool u lo) && negb (Qle_bool hi u).

(** Of two one-digit numerals, the one nearer to [q]. *)
Definition nearer (q : Q) (k : Z) (best : option Z) (d : Z) : option Z :=
  match best with
  | None => Some d
  | Some b =>
      if Qle_bool (Qabs (inject_Z b * Qpower 10 k - q))
                  (Qabs (inject_Z d * Qpower 10 k - q))
      then Some b else Some d
  end.

(** First digit and decimal exponent of [repr]'s shortest numeral for the
    positive float [m * 2^e]: the nearest one-digit numeral that rounds to
    the float if there is one, and otherwise the float's own leading digit,
    shared by every real of its rounding interval. *)
Definition repr_lead (m : positive) (e : Z) : Z * Z :=
  let q := (inject_Z (Zpos m) * Qpower 2 e)%Q in
  let k := F64.decade q in
  let one_digit :=
    filter (fun d => rounds_to m e (inject_Z d * Qpower 10 k)%Q)
           [1; 2; 3; 4; 5; 6; 7; 8; 9; 10]%Z in
  match fold_left (nearer q k) one_digit None with
  | Some d => if (d =? 10)%Z then (1, k + 1)%Z else (d, k)
  | None => (Qfloor (q / Qpower 10 k), k)
  end.

Definition digit_char (d : Z) : ascii := ascii_of_nat (48 + Z.to_nat d).

(** [str(x)[0]] for a float [x]: ["n"] of [nan], ["i"] of [inf], the sign of
    a negative value, and otherwise the first character of the shortest
    numeral, which is written in positional notation, with a leading ["0"]
    below one, when its decimal exponent is between -4 and 15. *)
Definition str_head (x : float) : ascii :=
  match Prim2SF x with
  | S754_nan => "n"
  | S754_infinity s => if s then "-" else "i"
  | S754_zero s => if s then "-" else "0"
  | S754_finite s m e =>
      if s then "-"
      else let '(d, k) := repr_lead m e in
           if (-4 <=? k)%Z && (k <=? -1)%Z then "0" else digit_char d
  end%char.

End Builtin.

(** ** scale_bar: choosing the length *)

Module ScaleBar.

Definition nice_heads : list ascii := ["1"; "2"; "5"]%char.

Definition in_heads (c : ascii) : bool :=
  existsb (Ascii.eqb c) nice_heads.

(** The nested function [scale_number], closed over [ndim].  [depth] is the
    number of frames the interpreter still allows ([sys.getrecursionlimit()]
    less the frames in use). *)
Fixpoint scale_number (depth : nat) (ndim : Z) (x : float) : result Z :=
  match depth with
  | O => Raise RecursionError
  | S depth' =>
      if in_heads (Builtin.str_head x) then Builtin.int x
      else step <- Builtin.pow10 ndim ;;
           scale_number depth' ndim (x - step)%float
  end.

Section WithLog10.

Variable log10_finite : float -> float.

(** [int(np.floor(np.log10(length)))]: [int] rejects the NaN of a negative
    length and the [-inf] of a zero. *)
Definition ndim_of (length : float) : result Z :=
  Builtin.int (Np.floor (Np.log10 log10_finite length)).

(** The block under [if not length:], for a viewport spanning [x0 .. x1]
    metres. *)
Definition pick_length (depth : nat) (x0 x1 : float) : result Z :=
  let length := ((x1 - x0) / 5000)%float in
  ndim <- ndim_of length ;;
  length <- Builtin.round length (- ndim) ;;
  scale_number depth ndim length.

(** The length that [scale_bar] draws.  [not length] holds of [None] and of
    a zero; any other length from the caller is kept as it is. *)
Definition scale_bar_length (depth : nat) (x0 x1 : float) (length : option float)
  : result number :=
  match length with
  | None => z <- pick_length depth x0 x1 ;; Ok (PyInt z)
  | Some x =>
      if (x =? 0)%float then z <- pick_length depth x0 x1 ;; Ok (PyInt z)
      else Ok (PyFloat x)
  end.

End WithLog10.

End ScaleBar.

(** ** Dictionaries *)

Module Dict.

(** A [dict] keyed by integers, as the list of its items in insertion
    order. *)
Definition t (V : Type) : Type := list (Z * V).

Definition empty {V : Type} : t V := [].

(** [d[k] = v]: an existing key keeps its place and takes the new value, a
    new key goes last. *)
Fixpoint setitem {V : Type} (d : t V) (k : Z) (v : V) : t V :=
  match d with
  | [] => [(k, v)]
  | (k', v') :: rest =>
      if (k' =? k)%Z then (k, v) :: rest else (k', v') :: setitem rest k v
  end.

(** [d[k]] *)
Fixpoint getitem {V : Type} (d : t V) (k : Z) : result V :=
  match d with
  | [] => Raise KeyError
  | (k', v) :: rest => if (k' =? k)%Z then Ok v else getitem rest k
  end.

(** [list(d.keys())] *)
Definition keys {V : Type} (d : t V) : list Z := map fst d.

Definition len {V : Type} (d : t V) : nat := List.length d.

End Dict.

(** ** here_isolines_to_WGS84 *)

Module Decoder.

(** One element of [here_response['isolines']]: [iso['range']['value']] and
    the ['outer'] string of each element of [iso['polygons']]. *)
Record isoline : Set := Isoline {
  range_value : Z;
  polygons_outer : list string
}.

(** A decoded point, as [flexpolyline] yields it: latitude first. *)
Record latlng : Set := LatLng {
  lat : float;
  lng : float
}.

(** [np.array(list(p for p in ...))]: one row per point, in the order of the
    tuple. *)
Definition rows (ps : list latlng) : Np.ndarray2 :=
  map (fun p => (lat p, lng p)) ps.

Section WithCodec.

(** [fp.iter_decode], the polyline codec, which can reject its input. *)
Variable iter_decode : string -> result (list latlng).

(** [coords = np.array(list(p for p in fp.iter_decode(iso['polygons'][0]['outer'])))] *)
Definition ring_of (iso : isoline) : result Np.ndarray2 :=
  outer <- getitem (polygons_outer iso) 0 ;;
  ps <- iter_decode outer ;;
  Ok (rows ps).

Definition decode_isoline (isolines : Dict.t Np.ndarray2) (iso : isoline)
  : result (Dict.t Np.ndarray2) :=
  coords <- ring_of iso ;;
  let value := range_value iso in
  Ok (Dict.setitem isolines value coords).

Definition here_isolines_to_WGS84 (here_response : list isoline)
  : result (Dict.t Np.ndarray2) :=
  for_each decode_isoline here_response Dict.empty.

End WithCodec.

End Decoder.

(** ** Unit tokens *)

Module Units.

(** The literal lists of the source. *)
Definition time_units : list string :=
  ["s"; "seconds"; "min"; "minutes"; "hours"; "h"]%string.

Definition distance_units : list string :=
  ["m"; "meters"; "km"; "kilometers"; "kms"; "ft"; "feet"; "foot"; "yard";
   "yrd"; "yards"; "mile"; "miles"; "mi"; "mls"]%string.

Definition known_units : list string :=
  ["s"; "seconds"; "min"; "minutes"; "hours"; "h"; "m"; "meters"; "km";
   "kilometers"; "kms"; "ft"; "feet"; "foot"; "yard"; "yrd"; "yards"; "mile";
   "miles"; "mi"; "mls"]%string.

(** The four diagnostics that the function prints before [return None]. *)
Inductive diagnostic : Set :=
| IncorrectIsolineUnit
| IncorrectAxisUnit
| IncompatibleTimeDistance
| IncompatibleDistanceTime.

(** The four guards under "Check for formatting correctness": the
    diagnostic of the first one that fires, if any. *)
Definition check (units ax_units : string) : option diagnostic :=
  if negb (str_in units known_units) then Some IncorrectIsolineUnit
  else if negb (str_in ax_units known_units) then Some IncorrectAxisUnit
  else if str_in units time_units && str_in ax_units distance_units
  then Some IncompatibleTimeDistance
  else if negb (str_in units time_units) && negb (str_in ax_units distance_units)
  then Some IncompatibleDistanceTime
  else None.

(** A one-dimensional numpy array, by element type: [int64], [uint64],
    [float64], or [object], whose elements are Python numbers. *)
Inductive ndarray1 : Set :=
| IntArray (a : list Z)
| UIntArray (a : list Z)
| FloatArray (a : list float)
| ObjectArray (a : list number).

Definition wrap64 (z : Z) : Z := ((z + 2 ^ 63) mod 2 ^ 64 - 2 ^ 63)%Z.

Definition wrapu64 (z : Z) : Z := (z mod 2 ^ 64)%Z.

Definition fits_int64 (z : Z) : bool := (- 2 ^ 63 <=? z)%Z && (z <? 2 ^ 63)%Z.

Definition fits_uint64 (z : Z) : bool := (0 <=? z)%Z && (z <? 2 ^ 64)%Z.

(** [np.array(ranges)] on a list of Python integers.  The empty list gives
    an empty [float64] array.  Otherwise each integer takes [int64] when it
    fits, [uint64] when only that fits and [object] beyond, and the array
    takes the common type of its elements: [float64] for [int64] together
    with [uint64], [object] as soon as one element is an object. *)
Definition array (ranges : list Z) : ndarray1 :=
  match ranges with
  | [] => FloatArray []
  | _ =>
      if forallb fits_int64 ranges then IntArray ranges
      else if forallb (fun z => negb (fits_int64 z) && fits_uint64 z) ranges
      then UIntArray ranges
      else if forallb (fun z => fits_int64 z || fits_uint64 z) ranges
      then FloatArray (map F64.of_Z ranges)
      else ObjectArray (map PyInt ranges)
  end.

(** [float(z)] where Python needs a float from an integer: the nearest
    float, or [OverflowError] when there is none. *)
Definition py_float (z : Z) : result float :=
  let f := F64.of_Z z in
  if is_infinity f then Raise OverflowError else Ok f.

(** [z / k] on two Python integers: the float nearest to the quotient, or
    [OverflowError]. *)
Definition py_truediv (z k : Z) : result float :=
  let f := F64.of_Q (Qmake z (Z.to_pos k)) in
  if is_infinity f then Raise OverflowError else Ok f.

(** [a * k] for a Python integer [k] (60 or 1000 here): the integer types
    wrap around, and an object array multiplies in Python integers. *)
Definition mul_int (a : ndarray1) (k : Z) : ndarray1 :=
  match a with
  | IntArray l => IntArray (map (fun z => wrap64 (z * k)) l)
  | UIntArray l => UIntArray (map (fun z => wrapu64 (z * k)) l)
  | FloatArray l => FloatArray (map (fun x => (x * F64.of_Z k)%float) l)
  | ObjectArray l =>
      ObjectArray (map (fun x => match x with
                                 | PyInt z => PyInt (z * k)
                                 | PyFloat f => PyFloat (f * F64.of_Z k)
                                 end) l)
  end.

(** One element of an object array with a float operand on its right: an
    integer element is made a float first. *)
Definition with_float (op : float -> float) (x : number) : result number :=
  match x with
  | PyInt z => f <- py_float z ;; Ok (PyFloat (op f))
  | PyFloat f => Ok (PyFloat (op f))
  end.

(** [a * c] and [a / c] for a float [c]: the numeric types give [float64];
    an object array works element by element and stops at the first
    element that raises. *)
Definition float_op (op : float -> float) (a : ndarray1) : result ndarray1 :=
  match a with
  | IntArray l => Ok (FloatArray (map (fun z => op (F64.of_Z z)) l))
  | UIntArray l => Ok (FloatArray (map (fun z => op (F64.of_Z z)) l))
  | FloatArray l => Ok (FloatArray (map op l))
  | ObjectArray l => l' <- comprehension (with_float op) l ;; Ok (ObjectArray l')
  end.

Definition mul_float (a : ndarray1) (c : float) : result ndarray1 :=
  float_op (fun x => (x * c)%float) a.

Definition div_float (a : ndarray1) (c : float) : result ndarray1 :=
  float_op (fun x => (x / c)%float) a.

(** [a / k] for a Python integer [k] (60, 3600 or 1000 here): the true
    division.  The numeric types divide by the float of [k]; in an object
    array an integer element is divided as Python divides two integers. *)
Definition div_int (a : ndarray1) (k : Z) : result ndarray1 :=
  match a with
  | ObjectArray l =>
      l' <- comprehension
              (fun x => match x with
                        | PyInt z => f <- py_truediv z k ;; Ok (PyFloat f)
                        | PyFloat f => Ok (PyFloat (f / F64.of_Z k))
                        end) l ;;
      Ok (ObjectArray l')
  | _ => float_op (fun x => (x / F64.of_Z k)%float) a
  end.

(** [len(a)] *)
Definition len (a : ndarray1) : nat :=
  match a with
  | IntArray l => List.length l
  | UIntArray l => List.length l
  | FloatArray l => List.length l
  | ObjectArray l => List.length l
  end.

(** [a[i]] *)
Definition item (a : ndarray1) (i : nat) : result number :=
  match a with
  | IntArray l => z <- getitem l i ;; Ok (PyInt z)
  | UIntArray l => z <- getitem l i ;; Ok (PyInt z)
  | FloatArray l => x <- getitem l i ;; Ok (PyFloat x)
  | ObjectArray l => getitem l i
  end.

(** The first [if]/[elif] chain under "Convert units": [None] when no branch
    binds [values]. *)
Definition to_base (units : string) (ranges : list Z) : result (option ndarray1) :=
  let u := lower units in
  if str_in u ["s"; "seconds"]%string then Ok (Some (array ranges))
  else if str_in u ["min"; "minutes"]%string
  then Ok (Some (mul_int (array ranges) 60))
  else if str_in u ["hours"; "h"]%string
  then Ok (Some (mul_int (mul_int (array ranges) 60) 60))
  else if str_in u ["m"; "meters"]%string then Ok (Some (array ranges))
  else if str_in u ["km"; "kilometers"; "kms"]%string
  then Ok (Some (mul_int (array ranges) 1000))
  else if str_in u ["ft"; "feet"; "foot"]%string
  then v <- mul_float (array ranges) 0.3048 ;; Ok (Some v)
  else if str_in u ["yard"; "yrd"; "yards"]%string
  then v <- mul_float (array ranges) 0.9144 ;; Ok (Some v)
  else if str_in u ["mile"; "miles"; "mi"; "mls"]%string
  then v <- mul_float (array ranges) 1609.344 ;; Ok (Some v)
  else Ok None.

(** Reading the local [values]. *)
Definition bound (values : option ndarray1) : result ndarray1 :=
  match values with
  | Some v => Ok v
  | None => Raise UnboundLocalError
  end.

(** The second chain: a branch that fires reads [values]; when none fires
    [values] is left as it was. *)
Definition from_base (ax_units : string) (values : option ndarray1)
  : result (option ndarray1) :=
  let u := lower ax_units in
  if str_in u ["s"; "seconds"]%string then v <- bound values ;; Ok (Some v)
  else if str_in u ["min"; "minutes"]%string
  then v <- bound values ;; v' <- div_int v 60 ;; Ok (Some v')
  else if str_in u ["hours"; "h"]%string
  then v <- bound values ;; v' <- div_int v (60 * 60) ;; Ok (Some v')
  else if str_in u ["m"; "meters"]%string then v <- bound values ;; Ok (Some v)
  else if str_in u ["km"; "kilometers"; "kms"]%string
  then v <- bound values ;; v' <- div_int v 1000 ;; Ok (Some v')
  else if str_in u ["ft"; "feet"; "foot"]%string
  then v <- bound values ;; v' <- div_float v 0.3048 ;; Ok (Some v')
  else if str_in u ["yard"; "yrd"; "yards"]%string
  then v <- bound values ;; v' <- div_float v 0.9144 ;; Ok (Some v')
  else if str_in u ["mile"; "miles"; "mi"; "mls"]%string
  then v <- bound values ;; v' <- div_float v 1609.344 ;; Ok (Some v')
  else Ok values.

Definition convert (units ax_units : string) (ranges : list Z)
  : result (option ndarray1) :=
  values <- to_base units ranges ;;
  from_base ax_units values.

End Units.

(** ** plot_isolines and patch_between *)

Module Plot.

(** [Path.MOVETO] and [Path.LINETO]. *)
Inductive code : Set :=
| MOVETO
| LINETO.

Record path : Set := Path {
  vertices : Np.ndarray2;
  codes : list code
}.

(** [Path(vertices, codes)]: matplotlib rejects codes that do not match the
    vertices in number or that do not start with a move. *)
Definition make_path (vertices : Np.ndarray2) (codes : list code) : result path :=
  if negb (List.length codes =? List.length vertices)%nat then Raise ValueError
  else match codes with
       | LINETO :: _ => Raise ValueError
       | _ => Ok (Path vertices codes)
       end.

(** [poly_C = [Path.LINETO for p in poly]; poly_C[0] = Path.MOVETO] *)
Definition boundary_codes (poly : Np.ndarray2) : result (list code) :=
  match map (fun _ => LINETO) poly with
  | [] => Raise IndexError
  | _ :: rest => Ok (MOVETO :: rest)
  end.

Definition patch_between (poly1 poly2 : Np.ndarray2) : result path :=
  poly1_C <- boundary_codes poly1 ;;
  poly2_C <- boundary_codes poly2 ;;
  let vertices := [] ++ poly1 ++ rev poly2 in
  let codes := [] ++ poly1_C ++ poly2_C in
  make_path vertices codes.

(** The pieces of a patch label,
    [str(round(lo, label_rounding)) + '-' + str(round(hi, label_rounding)) + ' ' + ax_units]. *)
Record label : Set := Label {
  label_lo : number;
  label_hi : number;
  label_digits : Z;
  label_units : string
}.

(** A [PathPatch] with the keyword arguments it is built from; [facecolor]
    holds the argument handed to the colour map. *)
Record patch : Set := Patch {
  patch_path : path;
  patch_lw : float;
  patch_facecolor : float;
  patch_alpha : float;
  patch_label : label
}.

(** [get_c = lambda i, n: 1-(1/(n))*i-(1/(2*n))] on Python integers. *)
Definition get_c (i n : nat) : float :=
  let one := F64.of_Z 1 in
  let fi := F64.of_Z (Z.of_nat i) in
  (one - (one / F64.of_Z (Z.of_nat n)) * fi
       - (one / F64.of_Z (2 * Z.of_nat n)))%float.

(** [np.hstack((np.vstack(a[:,1]), np.vstack(a[:,0])))] *)
Definition swap_columns (a : Np.ndarray2) : result Np.ndarray2 :=
  c1 <- Np.column1 a ;;
  c0 <- Np.column0 a ;;
  Ok (combine c1 c0).

Section Style.

Variables (units ax_units : string) (label_rounding : Z).
Variables (contour_lines alpha : float).

(** The body of [for i in range(len(polygons))]; [ax.add_patch] appends to
    the patches of the axes. *)
Definition plot_ring (polygons : list Np.ndarray2) (values : option Units.ndarray1)
  (n : nat) (ax : list patch) (i : nat) : result (list patch) :=
  if (i =? 0)%nat then
    poly <- getitem polygons i ;;
    poly_C <- boundary_codes poly ;;
    let codes := [] ++ poly_C in
    p <- make_path poly codes ;;
    v <- Units.bound values ;;
    hi <- Units.item v i ;;
    Ok (ax ++ [Patch p contour_lines (get_c i n) alpha
                 (Label (PyFloat 0) hi label_rounding ax_units)])
  else
    poly <- getitem polygons i ;;
    prev <- getitem polygons (i - 1) ;;
    p <- patch_between poly prev ;;
    v <- Units.bound values ;;
    lo <- Units.item v (i - 1) ;;
    hi <- Units.item v i ;;
    Ok (ax ++ [Patch p contour_lines (get_c i n) alpha
                 (Label lo hi label_rounding ax_units)]).

(** The loop under "Plot isolines". *)
Definition plot_loop (polygons : list Np.ndarray2) (values : option Units.ndarray1)
  (n : nat) (ax : list patch) : result (list patch) :=
  for_each (plot_ring polygons values n) (seq 0 (List.length polygons)) ax.

(** What a call leaves behind: a printed diagnostic and nothing drawn, or
    the axes with the new patches. *)
Inductive outcome : Set :=
| Rejected (d : Units.diagnostic)
| Plotted (ax : list patch).

Definition plot_isolines (isolines : Dict.t Np.ndarray2) (ax : list patch)
  : result outcome :=
  let ranges := Dict.keys isolines in
  polygons <- comprehension
                (fun value => a <- Dict.getitem isolines value ;; swap_columns a)
                ranges ;;
  match Units.check units ax_units with
  | Some d => Ok (Rejected d)
  | None =>
      values <- Units.convert units ax_units ranges ;;
      ax' <- plot_loop polygons values (List.length ranges) ax ;;
      Ok (Plotted ax')
  end.

End Style.

End Plot.

(** ** here_geocode_request and here_isoline_request *)

Module Request.


(** [s[:-1]]: all but the last character; the empty string stays empty. *)
Fixpoint drop_last (s : string) : string :=
  match s with
  | EmptyString => EmptyString
  | String c EmptyString => EmptyString
  | String c rest => String c (drop_last rest)
  end.

(** [str(n)] for an integer. *)
Definition str_int (z : Z) : string := NilZero.string_of_int (Z.to_int z).


(** The [range_values] argument: something to iterate over, or a single
    number, on which the [for] statement raises and the handler takes
    over. *)
Inductive range_values : Set :=
| Many (rs : list number)
| One (r : number).

Section WithRepr.

(** [str] on a float, the shortest numeral that reads back as the float. *)
Variable float_repr : float -> string.

Definition str (x : number) : string :=
  match x with
  | PyInt z => str_int z
  | PyFloat f => float_repr f
  end.

(** The [try] block and its handler: [values] after them. *)
Definition collect (rv : range_values) : string :=
  match rv with
  | Many rs => fold_left (fun values r => (values ++ str r ++ ",")%string) rs ""%string
  | One r => ("" ++ str r ++ ",")%string
  end.

Definition here_isoline_request (origin_point : list number)
  (transport_mode : string) (rv : range_values) (range_type apiKey : string)
  (departure_time : option string) (reverse : bool) : result string :=
  let url := "https://isoline.router.hereapi.com/v8/isolines?"%string in
  let origin := if reverse then "destination"%string else "origin"%string in
  let depature := if reverse then "arrivalTime"%string else "departureTime"%string in
  p0 <- getitem origin_point 0 ;;
  p1 <- getitem origin_point 1 ;;
  let url := (url ++ "apiKey" ++ apiKey
                  ++ "&transportMode=" ++ transport_mode
                  ++ "&" ++ origin ++ "=" ++ str p0 ++ "," ++ str p1
                  ++ "&range[type]=" ++ range_type
                  ++ "&range[values]=")%string in
  let values := collect rv in
  let url := (url ++ drop_last values)%string in
  let url := match departure_time with
             | Some t => (url ++ "&" ++ depature ++ "=" ++ t)%string
             | None => url
             end in
  Ok url.

End WithRepr.

End Request.

(** ** Vocabulary of the statements *)

Module Spec.

(** The last entry of a response that declares the range value [k]. *)
Definition last_with (k : Z) (response : list Decoder.isoline)
  : option Decoder.isoline :=
  find (fun iso => (Decoder.range_value iso =? k)%Z) (rev response).

(** A point with its two coordinates exchanged. *)
Definition swap (p : float * float) : float * float := (snd p, fst p).

(** A ring without NaN coordinates. *)
Definition no_nan (ring : Np.ndarray2) : Prop :=
  Forall (fun p => is_nan (fst p) = false /\ is_nan (snd p) = false) ring.

(** A point inside the rectangle of four bounds. *)
Definition within (b : Extent.bounds) (p : float * float) : Prop :=
  (Extent.lon_min b <=? fst p)%float = true /\
  (fst p <=? Extent.lon_max b)%float = true /\
  (Extent.lat_min b <=? snd p)%float = true /\
  (snd p <=? Extent.lat_max b)%float = true.

(** Bounds none of which is NaN, and bounds that contain other bounds. *)
Definition good (b : Extent.bounds) : Prop :=
  is_nan (Extent.lon_max b) = false /\ is_nan (Extent.lon_min b) = false /\
  is_nan (Extent.lat_max b) = false /\ is_nan (Extent.lat_min b) = false.

Definition grows (b b' : Extent.bounds) : Prop :=
  (Extent.lon_max b <=? Extent.lon_max b')%float = true /\
  (Extent.lon_min b' <=? Extent.lon_min b)%float = true /\
  (Extent.lat_max b <=? Extent.lat_max b')%float = true /\
  (Extent.lat_min b' <=? Extent.lat_min b)%float = true.

(** Bounds with the roles of the two columns exchanged. *)
Definition flip (b : Extent.bounds) : Extent.bounds :=
  Extent.Bounds (Extent.lat_max b) (Extent.lat_min b)
                (Extent.lon_max b) (Extent.lon_min b).

(** The codes of one boundary: a move at its first point and a line to
    each of the others. *)
Definition boundary (ring : Np.ndarray2) : list Plot.code :=
  Plot.MOVETO :: repeat Plot.LINETO (List.length ring - 1).

(** The region of the first ring, and the region between a ring and the
    ring before it. *)
Definition simple_region (ring : Np.ndarray2) : Plot.path :=
  Plot.Path ring (boundary ring).

Definition annulus (outer inner : Np.ndarray2) : Plot.path :=
  Plot.Path (outer ++ rev inner) (boundary outer ++ boundary inner).

(** The region owed to position [i] of a sequence of rings. *)
Definition region (rings : list Np.ndarray2) (i : nat) : option Plot.path :=
  match i with
  | O => option_map simple_region (nth_error rings 0)
  | S j =>
      match nth_error rings i, nth_error rings j with
      | Some outer, Some inner => Some (annulus outer inner)
      | _, _ => None
      end
  end.

(** The leading decimal digit of a positive integer. *)
Fixpoint leading_digit_from (fuel : nat) (z : Z) : Z :=
  match fuel with
  | O => z
  | S fuel' => if (z <? 10)%Z then z else leading_digit_from fuel' (z / 10)
  end.

Definition leading_digit (z : Z) : Z :=
  leading_digit_from (S (Z.to_nat (Z.log2 z))) z.

(** A nice number leads with 1, 2 or 5. *)
Definition nice (z : Z) : bool :=
  existsb (Z.eqb (leading_digit z)) [1; 2; 5]%Z.







(** The same mapping with its items in ascending order of range value. *)
Fixpoint insert_by_range {V : Type} (kv : Z * V) (d : Dict.t V) : Dict.t V :=
  match d with
  | [] => [kv]
  | kv' :: rest =>
      if (fst kv <=? fst kv')%Z then kv :: d
      else kv' :: insert_by_range kv rest
  end.

Definition sort_by_range {V : Type} (d : Dict.t V) : Dict.t V :=
  fold_right insert_by_range [] d.

End Spec.

(** ** Sample data for the concrete statements *)

Module Sample.

(** A codec that knows three polylines and rejects every other string. *)
Definition codec (s : string) : result (list Decoder.latlng) :=
  if (s =? "A")%string then
    Ok [Decoder.LatLng 52.5 13.25; Decoder.LatLng 52.75 13.25;
        Decoder.LatLng 52.75 13.5]
  else if (s =? "B")%string then
    Ok [Decoder.LatLng 52 13; Decoder.LatLng 53 13; Decoder.LatLng 53 14;
        Decoder.LatLng 52 14]
  else if (s =? "C")%string then
    Ok [Decoder.LatLng 51 12; Decoder.LatLng 54 12; Decoder.LatLng 54 15]
  else Raise ValueError.

Definition three_isolines : list Decoder.isoline :=
  [Decoder.Isoline 600 ["A"%string]; Decoder.Isoline 1200 ["B"%string];
   Decoder.Isoline 1800 ["C"%string]].

Definition repeated_value : list Decoder.isoline :=
  [Decoder.Isoline 600 ["A"%string]; Decoder.Isoline 600 ["B"%string]].

Definition ring_a : Np.ndarray2 := [(52.5, 13.25); (52.75, 13.25); (52.75, 13.5)]%float.

Definition ring_b : Np.ndarray2 := [(52, 13); (53, 13); (53, 14); (52, 14)]%float.

(** A logarithm that knows the candidates used below, with the values that
    the routine returns for them, and is NaN elsewhere. *)
Definition log10 (x : float) : float :=
  if (x =? 13)%float then 1.1139433523068367%float
  else if (x =? 47)%float then 1.6720978579357175%float
  else if (x =? 1900)%float then 3.278753600952829%float
  else if (x =? 8)%float then 0.9030899869919435%float
  else if (x =? 0.5)%float then (-0.3010299956639812)%float
  else if (x =? 0.03)%float then (-1.5228787452803376)%float
  else if (x =? 999.9999999999998)%float then 3%float
  else nan.

(** One mapping filled in two orders. *)
Definition ascending : Dict.t Np.ndarray2 := [(600%Z, ring_a); (1200%Z, ring_b)].

Definition descending : Dict.t Np.ndarray2 := [(1200%Z, ring_b); (600%Z, ring_a)].

End Sample.

(** ** Further vocabulary *)

Module Shape.


(** The number of moves among the codes of a path. *)
Fixpoint moves (codes : list Plot.code) : nat :=
  match codes with
  | [] => 0
  | Plot.MOVETO :: rest => S (moves rest)
  | Plot.LINETO :: rest => moves rest
  end.

(** A value that fits a signed 64-bit integer. *)
Definition int64 (z : Z) : Prop := (- 2 ^ 63 <= z < 2 ^ 63)%Z.

(** A value that fits 64 bits, signed or unsigned. *)
Definition word64 (z : Z) : Prop := (- 2 ^ 63 <= z < 2 ^ 64)%Z.

(** An array of one of the numeric element types. *)
Definition numeric (a : Units.ndarray1) : Prop :=
  match a with
  | Units.ObjectArray _ => False
  | _ => True
  end.

(** The integer factor that takes a unit to the base unit of its category,
    for the units that have one. *)
Definition int_factor (units : string) : option Z :=
  if str_in units ["s"; "seconds"; "m"; "meters"]%string then Some 1%Z
  else if str_in units ["min"; "minutes"]%string then Some 60%Z
  else if str_in units ["hours"; "h"]%string then Some 3600%Z
  else if str_in units ["km"; "kilometers"; "kms"]%string then Some 1000%Z
  else None.

(** The base unit tokens of the category of [units]. *)
Definition base_tokens (units : string) : list string :=
  if str_in units Units.time_units then ["s"; "seconds"]%string
  else ["m"; "meters"]%string.

(** The fill intensities of [n] rings: inside the unit interval and falling
    from one ring to the next. *)
Definition intensities_fall (n : nat) : bool :=
  forallb (fun i =>
             (0 <? Plot.get_c i n)%float && (Plot.get_c i n <? 1)%float
             && ((n <=? S i)%nat || (Plot.get_c (S i) n <? Plot.get_c i n)%float))
          (seq 0 n).

(** What the patch of position [i] carries beside its path. *)
Definition dressed (ax_units : string) (label_rounding : Z)
  (contour_lines alpha : float) (v : Units.ndarray1) (n i : nat)
  (p : Plot.patch) : Prop :=
  Plot.patch_lw p = contour_lines /\
  Plot.patch_alpha p = alpha /\
  Plot.patch_facecolor p = Plot.get_c i n /\
  Plot.label_units (Plot.patch_label p) = ax_units /\
  Plot.label_digits (Plot.patch_label p) = label_rounding /\
  Ok (Plot.label_hi (Plot.patch_label p)) = Units.item v i /\
  Ok (Plot.label_lo (Plot.patch_label p))
  = match i with
    | O => Ok (PyFloat 0)
    | S j => Units.item v j
    end.

End Shape.

(** * Properties *)

(** ** Unit validation *)

Lemma str_in_In (s : string) (l : list string) :
  str_in s l = true <-> In s l.
Proof.
  unfold str_in. rewrite existsb_exists. split.
  - intros [x [Hin Heq]]. apply String.eqb_eq in Heq. now subst.
  - intros Hin. exists s. split; [assumption | apply String.eqb_refl].
Qed.

(** C4: a time token paired with a distance token is turned away by the
    third guard, and the same pair in the other order by the fourth; in
    neither order does [plot_isolines] draw anything. *)
Theorem cross_category_rejected (t d : string) :
  In t Units.time_units ->
  In d Units.distance_units ->
  Units.check t d = Some Units.IncompatibleTimeDistance /\
  Units.check d t = Some Units.IncompatibleDistanceTime /\
  (forall digits lw alpha isolines ax ax',
      Plot.plot_isolines t d digits lw alpha isolines ax <> Ok (Plot.Plotted ax') /\
      Plot.plot_isolines d t digits lw alpha isolines ax <> Ok (Plot.Plotted ax')).
Proof.
  intros Ht Hd.
  assert (Htd : Units.check t d = Some Units.IncompatibleTimeDistance /\
                Units.check d t = Some Units.IncompatibleDistanceTime).
  { simpl in Ht, Hd.
    repeat (destruct Ht as [Ht | Ht]; [subst t |]); try contradiction;
      repeat (destruct Hd as [Hd | Hd]; [subst d |]); try contradiction;
      split; reflexivity. }
  destruct Htd as [Htd Hdt]. repeat split; try assumption.
  - unfold Plot.plot_isolines.
    destruct (comprehension _ _); simpl; [discriminate |].
    rewrite Htd. discriminate.
  - unfold Plot.plot_isolines.
    destruct (comprehension _ _); simpl; [discriminate |].
    rewrite Hdt. discriminate.
Qed.

Lemma cross_category_rejected_witness :
  Units.check "minutes" "km" = Some Units.IncompatibleTimeDistance /\
  Units.check "km" "minutes" = Some Units.IncompatibleDistanceTime.
Proof.
  destruct (cross_category_rejected "minutes" "km") as [H1 [H2 _]].
  - simpl. tauto.
  - simpl. tauto.
  - split; assumption.
Defined.

(** Lower-casing text that is already lower case changes nothing. *)
Lemma lower_char_idem (c : ascii) : lower_char (lower_char c) = lower_char c.
Proof.
  destruct c as [[] [] [] [] [] [] [] []]; reflexivity.
Qed.

Lemma lower_idem (s : string) : lower (lower s) = lower s.
Proof.
  induction s as [| c s IH]; simpl; [reflexivity |].
  now rewrite lower_char_idem, IH.
Qed.

(** C5: the conversion chains look at the lower-cased token, so for them
    the spelling of a token does not matter; the guards before them compare
    the token as written, and turn a capitalised token away before any
    conversion happens. *)
Theorem capitalised_token_rejected :
  (forall units ax_units ranges,
      Units.convert units ax_units ranges
      = Units.convert (lower units) (lower ax_units) ranges) /\
  lower "Seconds" = "seconds"%string /\
  lower "KM" = "km"%string /\
  lower "Minutes" = "minutes"%string /\
  Units.check "seconds" "minutes" = None /\
  Units.check "Seconds" "minutes" = Some Units.IncorrectIsolineUnit /\
  Units.check "seconds" "Minutes" = Some Units.IncorrectAxisUnit /\
  Units.check "KM" "km" = Some Units.IncorrectIsolineUnit /\
  (forall digits lw alpha ax,
      Plot.plot_isolines "Seconds" "minutes" digits lw alpha [] ax
      = Ok (Plot.Rejected Units.IncorrectIsolineUnit) /\
      Plot.plot_isolines "seconds" "minutes" digits lw alpha [] ax
      = Ok (Plot.Plotted ax)).
Proof.
  split.
  - intros units ax_units ranges.
    unfold Units.convert, Units.from_base, Units.to_base.
    now rewrite !lower_idem.
  - repeat split; reflexivity.
Qed.

(** Keys that fit 64 bits make an array of a numeric type, on which no
    operation of the two chains raises. *)
Lemma array_len (ranges : list Z) :
  Units.len (Units.array ranges) = List.length ranges.
Proof.
  unfold Units.array. destruct ranges as [| z ranges]; [reflexivity |].
  repeat match goal with
         | |- context [if ?c then _ else _] => destruct c
         end; simpl; now rewrite ?length_map.
Qed.

Lemma array_numeric (ranges : list Z) :
  Forall Shape.word64 ranges -> Shape.numeric (Units.array ranges).
Proof.
  intros H. unfold Units.array. destruct ranges as [| z ranges]; [exact I |].
  destruct (forallb Units.fits_int64 (z :: ranges)); [exact I |].
  destruct (forallb _ (z :: ranges)); [exact I |].
  destruct (forallb (fun z => Units.fits_int64 z || Units.fits_uint64 z) (z :: ranges))
    eqn:E; [exact I |].
  exfalso. assert (T : forallb (fun z => Units.fits_int64 z || Units.fits_uint64 z)
                          (z :: ranges) = true); [| congruence].
  apply forallb_forall. intros x Hx. rewrite Forall_forall in H.
  specialize (H x Hx). unfold Shape.word64 in H.
  unfold Units.fits_int64, Units.fits_uint64.
  destruct (Z.ltb_spec x (2 ^ 63)).
  - replace (- 2 ^ 63 <=? x)%Z with true by (symmetry; apply Z.leb_le; lia).
    reflexivity.
  - replace (0 <=? x)%Z with true by (symmetry; apply Z.leb_le; lia).
    replace (x <? 2 ^ 64)%Z with true by (symmetry; apply Z.ltb_lt; lia).
    now rewrite orb_true_r.
Qed.

(** The element types that [np.array] picks, and what they mean for the
    two chains: an empty list is an empty [float64] array, a key from
    [2^63] on makes a [uint64] array that wraps at [2^64], a mix of the
    two integer types is [float64], and a key beyond 64 bits makes an
    [object] array, whose elements a float factor can fail to convert. *)
Lemma array_by_element_type :
  Units.array [] = Units.FloatArray [] /\
  Units.array [600; 1200]%Z = Units.IntArray [600; 1200]%Z /\
  Units.array [2 ^ 63]%Z = Units.UIntArray [2 ^ 63]%Z /\
  Units.array [1; 2 ^ 63]%Z = Units.FloatArray [1; 9223372036854775808]%float /\
  Units.array [2 ^ 64]%Z = Units.ObjectArray [PyInt (2 ^ 64)] /\
  Units.convert "min" "s" [2 ^ 63]%Z
  = Ok (Some (Units.UIntArray [(2 ^ 63 * 60) mod 2 ^ 64]%Z)) /\
  Units.convert "hours" "s" [2 ^ 64]%Z
  = Ok (Some (Units.ObjectArray [PyInt (2 ^ 64 * 3600)])) /\
  Units.convert "ft" "m" [10 ^ 400]%Z = Raise OverflowError.
Proof. repeat split; vm_compute; reflexivity. Qed.

Lemma mul_int_numeric (a : Units.ndarray1) (k : Z) :
  Shape.numeric a ->
  Shape.numeric (Units.mul_int a k)
  /\ Units.len (Units.mul_int a k) = Units.len a.
Proof. destruct a; simpl; intros H; try contradiction; now rewrite length_map. Qed.

Lemma float_op_numeric (op : float -> float) (a : Units.ndarray1) :
  Shape.numeric a ->
  exists v, Units.float_op op a = Ok v /\ Shape.numeric v
            /\ Units.len v = Units.len a.
Proof.
  destruct a; simpl; intros H; try contradiction;
    (eexists; split; [reflexivity |]); simpl; now rewrite length_map.
Qed.

Lemma div_int_numeric (a : Units.ndarray1) (k : Z) :
  Shape.numeric a ->
  exists v, Units.div_int a k = Ok v /\ Shape.numeric v
            /\ Units.len v = Units.len a.
Proof.
  destruct a; simpl; intros H; try contradiction;
    (eexists; split; [reflexivity |]); simpl; now rewrite length_map.
Qed.

(** Tokens that pass the guards are converted: [values] is bound and has
    one entry per range. *)
Lemma to_base_known (units : string) (ranges : list Z) :
  str_in units Units.known_units = true ->
  Forall Shape.word64 ranges ->
  exists v, Units.to_base units ranges = Ok (Some v)
            /\ Shape.numeric v /\ Units.len v = List.length ranges.
Proof.
  intros H Hw. pose proof (array_numeric ranges Hw) as Hn.
  pose proof (array_len ranges) as Hl.
  destruct (mul_int_numeric _ 60 Hn) as [Hn60 Hl60].
  destruct (mul_int_numeric _ 60 Hn60) as [Hn3600 Hl3600].
  destruct (mul_int_numeric _ 1000 Hn) as [Hn1000 Hl1000].
  apply str_in_In in H. simpl in H.
  repeat (destruct H as [H | H]; [subst units |]); try contradiction;
    try (eexists; split; [reflexivity |]; split; [assumption | congruence]);
    match goal with
    | |- context [Units.to_base ?u _] =>
        change (Units.to_base u ranges)
          with (v <- Units.mul_float (Units.array ranges) 0.3048 ;; Ok (Some v))
        || change (Units.to_base u ranges)
          with (v <- Units.mul_float (Units.array ranges) 0.9144 ;; Ok (Some v))
        || change (Units.to_base u ranges)
          with (v <- Units.mul_float (Units.array ranges) 1609.344 ;; Ok (Some v))
    end;
    match goal with
    | |- context [Units.mul_float ?a ?c] =>
        destruct (float_op_numeric (fun x => (x * c)%float) a Hn) as [v [Hv [Hnv Hlv]]];
        unfold Units.mul_float; rewrite Hv
    end;
    (eexists; split; [reflexivity |]; split; [assumption | congruence]).
Qed.

Lemma from_base_bound (ax_units : string) (v : Units.ndarray1) :
  Shape.numeric v ->
  exists v', Units.from_base ax_units (Some v) = Ok (Some v')
             /\ Units.len v' = Units.len v.
Proof.
  intros Hn. unfold Units.from_base, Units.div_float. cbv zeta.
  repeat match goal with
         | |- context [if ?c then _ else _] => destruct c
         end;
    try (eexists; split; reflexivity);
    simpl bind;
    match goal with
    | |- context [Units.div_int v ?k] =>
        destruct (div_int_numeric v k Hn) as [v' [Hv [_ Hl]]]; rewrite Hv
    | |- context [Units.float_op ?op v] =>
        destruct (float_op_numeric op v Hn) as [v' [Hv [_ Hl]]]; rewrite Hv
    end;
    (eexists; split; [reflexivity | assumption]).
Qed.

Lemma convert_checked (units ax_units : string) (ranges : list Z) :
  Units.check units ax_units = None ->
  Forall Shape.word64 ranges ->
  exists v, Units.convert units ax_units ranges = Ok (Some v)
            /\ Units.len v = List.length ranges.
Proof.
  intros H Hw. unfold Units.check in H.
  destruct (str_in units Units.known_units) eqn:Hu; simpl in H; [| discriminate].
  destruct (to_base_known units ranges Hu Hw) as [v [Hv [Hn Hlen]]].
  destruct (from_base_bound ax_units v Hn) as [v' [Hv' Hlen']].
  exists v'. unfold Units.convert. rewrite Hv. split; [assumption | congruence].
Qed.

(** ** The extent *)

(** The subtraction of the binary64 specification: the difference of two
    floats in order has no sign, so that taking its magnitude changes
    nothing. *)

Lemma digits2_pos_bounds (m : positive) :
  (2 ^ (Zpos (digits2_pos m) - 1) <= Zpos m < 2 ^ Zpos (digits2_pos m))%Z.
Proof.
  induction m as [m IH | m IH |]; simpl digits2_pos.
  - rewrite Pos2Z.inj_succ. replace (Z.succ (Zpos (digits2_pos m)) - 1)%Z with (Z.succ (Zpos (digits2_pos m) - 1))%Z by lia.
    rewrite !Z.pow_succ_r by lia. lia.
  - rewrite Pos2Z.inj_succ. replace (Z.succ (Zpos (digits2_pos m)) - 1)%Z with (Z.succ (Zpos (digits2_pos m) - 1))%Z by lia.
    rewrite !Z.pow_succ_r by lia. lia.
  - simpl. lia.
Qed.

Lemma iter_xO_value (m d : positive) :
  Zpos (Pos.iter xO m d) = (Zpos m * 2 ^ Zpos d)%Z.
Proof.
  revert m. induction d as [| d IH] using Pos.peano_ind; intros m.
  - simpl. lia.
  - rewrite Pos.iter_succ, Pos2Z.inj_succ, Z.pow_succ_r by lia.
    rewrite Pos2Z.inj_xO, IH. lia.
Qed.

(** A canonical mantissa has at most 53 bits, and exactly 53 above the
    least exponent. *)
Lemma bounded_inv (m : positive) (e : Z) :
  bounded prec emax m e = true ->
  (-1074 <= e)%Z /\ (Zpos m < 2 ^ 53)%Z /\ ((-1074 < e)%Z -> (2 ^ 52 <= Zpos m)%Z).
Proof.
  unfold bounded, canonical_mantissa, fexp, emin, prec, emax.
  intros H. apply andb_prop in H as [H _]. apply Z.eqb_eq in H.
  pose proof (digits2_pos_bounds m) as [Hlo Hhi].
  assert (Hd : (Zpos (digits2_pos m) <= 53)%Z) by lia.
  repeat split.
  - lia.
  - eapply Z.lt_le_trans; [exact Hhi |]. apply Z.pow_le_mono_r; lia.
  - intros He. assert (Zpos (digits2_pos m) = 53)%Z by lia.
    rewrite H0 in Hlo. exact Hlo.
Qed.

Lemma shl_align_same (m : positive) (e : Z) : shl_align m e e = (m, e).
Proof. unfold shl_align. now rewrite Z.sub_diag. Qed.

Lemma shl_align_down (m : positive) (e e' : Z) :
  (e' < e)%Z -> Zpos (fst (shl_align m e e')) = (Zpos m * 2 ^ (e - e'))%Z.
Proof.
  intros H. unfold shl_align.
  destruct (e' - e)%Z as [| p | p] eqn:E; try lia.
  simpl. rewrite iter_xO_value. replace (e - e')%Z with (Zpos p) by lia. reflexivity.
Qed.

(** Of two canonical positive magnitudes, the one with the larger exponent
    is the larger. *)
Lemma aligned_lt (m1 m2 : positive) (e1 e2 : Z) :
  bounded prec emax m1 e1 = true ->
  bounded prec emax m2 e2 = true ->
  (e1 < e2)%Z ->
  (Zpos (fst (shl_align m1 e1 (Z.min e2 e1))) < Zpos (fst (shl_align m2 e2 (Z.min e2 e1))))%Z /\
  (Zpos (fst (shl_align m1 e1 (Z.min e1 e2))) < Zpos (fst (shl_align m2 e2 (Z.min e1 e2))))%Z.
Proof.
  intros H1 H2 He.
  apply bounded_inv in H1 as [Hmin1 [Hhi1 _]].
  apply bounded_inv in H2 as [_ [_ Hlo2]].
  rewrite Z.min_r, Z.min_l by lia.
  rewrite shl_align_same, shl_align_down by lia. simpl fst.
  assert (2 ^ 1 <= 2 ^ (e2 - e1))%Z by (apply Z.pow_le_mono_r; lia).
  assert (2 ^ 52 <= Zpos m2)%Z by (apply Hlo2; lia).
  split; nia.
Qed.

Lemma SFabs_binary_round_aux (m e : Z) (l : location) :
  SFabs (binary_round_aux prec emax false m e l) = binary_round_aux prec emax false m e l.
Proof.
  unfold binary_round_aux.
  destruct (shr_fexp prec emax m e l) as [mrs' e'].
  destruct (shr_fexp prec emax _ e' loc_Exact) as [mrs'' e''].
  destruct (shr_m mrs''); try reflexivity.
  destruct (Z.leb _ _); reflexivity.
Qed.

Lemma SFabs_binary_normalize (m e : Z) :
  (0 <= m)%Z ->
  SFabs (binary_normalize prec emax m e false) = binary_normalize prec emax m e false.
Proof.
  intros Hm. destruct m as [| p | p]; try lia; simpl; [reflexivity |].
  unfold binary_round. destruct (shl_align _ _ _). apply SFabs_binary_round_aux.
Qed.

Lemma SFabs_SFsub (x y : spec_float) :
  valid_binary x = true ->
  valid_binary y = true ->
  SFltb y x = true \/ x = y ->
  SFabs (SFsub prec emax x y) = SFsub prec emax x y.
Proof.
  intros Vx Vy [Hlt | ->].
  - unfold SFltb in Hlt.
    destruct x as [sx | sx | | sx mx ex], y as [sy | sy | | sy my ey];
      simpl in Hlt; try discriminate;
      try (destruct sx; try discriminate; destruct sy; try discriminate; reflexivity);
      try (destruct sx; try discriminate; reflexivity);
      try (destruct sy; try discriminate; reflexivity).
    simpl in Vx, Vy. unfold SFsub. apply SFabs_binary_normalize.
    destruct sy, sx; simpl cond_Zopp; try discriminate; try lia.
    + destruct (Z.compare_spec ey ex) as [E | E | E]; try discriminate.
      * subst. rewrite Z.min_id, !shl_align_same. simpl fst.
        change (Pos.compare_cont Eq my mx) with (Pos.compare my mx) in Hlt.
        destruct (Pos.compare_spec my mx); try discriminate. lia.
      * pose proof (aligned_lt mx my ex ey Vx Vy E) as [_ H]. lia.
    + destruct (Z.compare_spec ey ex) as [E | E | E]; try discriminate.
      * subst. rewrite Z.min_id, !shl_align_same. simpl fst.
        change (Pos.compare_cont Eq my mx) with (Pos.compare my mx) in Hlt.
        destruct (Pos.compare_spec my mx); try discriminate. lia.
      * pose proof (aligned_lt my mx ey ex Vy Vx E) as [H _]. lia.
  - destruct y as [sy | sy | | sy my ey]; try (destruct sy; reflexivity); try reflexivity.
    unfold SFsub. rewrite Z.sub_diag. reflexivity.
Qed.

Lemma abs_sub (x y : float) :
  (y <? x)%float = true \/ x = y -> abs (x - y) = (x - y)%float.
Proof.
  intros H. apply Prim2SF_inj. rewrite abs_spec, sub_spec.
  apply SFabs_SFsub; try apply Prim2SF_valid.
  destruct H as [H | ->]; [left | right; reflexivity].
  now rewrite <- ltb_spec.
Qed.

(** Order of floats, from the specification of the comparisons. *)

Lemma SFleb_trans (a b c : spec_float) :
  SFleb a b = true -> SFleb b c = true -> SFleb a c = true.
Proof.
  unfold SFleb.
  destruct a as [sa | sa | | sa ma ea], b as [sb | sb | | sb mb eb],
           c as [sc | sc | | sc mc ec]; simpl;
    try discriminate; try reflexivity;
    try (destruct sa; try discriminate; try reflexivity);
    try (destruct sb; try discriminate; try reflexivity);
    try (destruct sc; try discriminate; try reflexivity);
    try (intros; discriminate).
  all: change (Pos.compare_cont Eq ma mb) with (Pos.compare ma mb);
       change (Pos.compare_cont Eq mb mc) with (Pos.compare mb mc);
       change (Pos.compare_cont Eq ma mc) with (Pos.compare ma mc).
  all: destruct (Z.compare_spec ea eb); destruct (Z.compare_spec eb ec);
       destruct (Z.compare_spec ea ec); try lia; try discriminate; try reflexivity;
       subst;
       destruct (Pos.compare_spec ma mb); destruct (Pos.compare_spec mb mc);
       destruct (Pos.compare_spec ma mc); simpl; try lia; try discriminate;
       try reflexivity; intros; try discriminate.
Qed.

(** Two values that are not NaN are comparable. *)
Lemma SFleb_total (a b : spec_float) :
  a <> S754_nan -> b <> S754_nan ->
  SFleb a b = false -> SFleb b a = true /\ SFltb b a = true.
Proof.
  unfold SFleb, SFltb.
  destruct a as [sa | sa | | sa ma ea], b as [sb | sb | | sb mb eb]; simpl;
    try congruence;
    try (destruct sa; try discriminate; try (split; reflexivity));
    try (destruct sb; try discriminate; try (split; reflexivity));
    intros _ _.
  all: change (Pos.compare_cont Eq ma mb) with (Pos.compare ma mb);
       change (Pos.compare_cont Eq mb ma) with (Pos.compare mb ma).
  all: destruct (Z.compare_spec ea eb); destruct (Z.compare_spec eb ea);
       try lia; try discriminate; try (split; reflexivity); subst;
       destruct (Pos.compare_spec ma mb); destruct (Pos.compare_spec mb ma);
       simpl; try lia; try discriminate; try (split; reflexivity).
Qed.

Lemma SFltb_false (a b : spec_float) :
  a <> S754_nan -> b <> S754_nan ->
  SFltb a b = false -> SFleb b a = true.
Proof.
  unfold SFleb, SFltb.
  destruct a as [sa | sa | | sa ma ea], b as [sb | sb | | sb mb eb]; simpl;
    try congruence;
    try (destruct sa; try discriminate; try reflexivity);
    try (destruct sb; try discriminate; try reflexivity);
    intros _ _.
  all: change (Pos.compare_cont Eq ma mb) with (Pos.compare ma mb);
       change (Pos.compare_cont Eq mb ma) with (Pos.compare mb ma).
  all: destruct (Z.compare_spec ea eb); destruct (Z.compare_spec eb ea);
       try lia; try discriminate; try reflexivity; subst;
       destruct (Pos.compare_spec ma mb); destruct (Pos.compare_spec mb ma);
       simpl; try lia; try discriminate; try reflexivity.
Qed.

Lemma SFcompare_refl (a : spec_float) :
  a <> S754_nan -> SFcompare a a = Some Eq.
Proof.
  destruct a as [sa | sa | | sa ma ea]; simpl; try congruence;
    try (destruct sa; reflexivity); intros _.
  change (Pos.compare_cont Eq ma ma) with (Pos.compare ma ma).
  destruct sa; rewrite Z.compare_refl, Pos.compare_refl; reflexivity.
Qed.

Lemma not_nan_spec (x : float) : is_nan x = false <-> Prim2SF x <> S754_nan.
Proof.
  unfold is_nan. rewrite eqb_spec. unfold SFeqb. split.
  - intros H C. rewrite C in H. discriminate.
  - intros H. now rewrite SFcompare_refl.
Qed.

Lemma leb_trans (a b c : float) :
  (a <=? b)%float = true -> (b <=? c)%float = true -> (a <=? c)%float = true.
Proof. rewrite !leb_spec. apply SFleb_trans. Qed.

Lemma leb_refl (a : float) : is_nan a = false -> (a <=? a)%float = true.
Proof.
  intros H. apply not_nan_spec in H. rewrite leb_spec. unfold SFleb.
  now rewrite SFcompare_refl.
Qed.

Lemma leb_false (a b : float) :
  is_nan a = false -> is_nan b = false ->
  (a <=? b)%float = false -> (b <=? a)%float = true.
Proof.
  intros Ha Hb. rewrite !leb_spec. intros H.
  apply not_nan_spec in Ha, Hb. now apply (SFleb_total _ _ Ha Hb).
Qed.

Lemma ltb_false (a b : float) :
  is_nan a = false -> is_nan b = false ->
  (a <? b)%float = false -> (b <=? a)%float = true.
Proof.
  intros Ha Hb. rewrite ltb_spec, leb_spec.
  apply not_nan_spec in Ha, Hb. now apply SFltb_false.
Qed.

Lemma ltb_leb (a b : float) : (a <? b)%float = true -> (a <=? b)%float = true.
Proof.
  rewrite ltb_spec, leb_spec. unfold SFltb, SFleb.
  destruct (SFcompare _ _) as [[] |]; congruence.
Qed.

(** The reductions of a column without NaN bound all of its entries. *)
Lemma fold_maximum_bound (l : list float) (x : float) :
  is_nan x = false -> Forall (fun y => is_nan y = false) l ->
  let r := fold_left Np.maximum l x in
  is_nan r = false /\ (x <=? r)%float = true
  /\ Forall (fun y => (y <=? r)%float = true) l.
Proof.
  revert x. induction l as [| y l IH]; intros x Hx Hl; simpl.
  - repeat split; [assumption | now apply leb_refl | constructor].
  - inversion Hl as [| ? ? Hy Hl']; subst.
    assert (E : Np.maximum x y = if (y <=? x)%float then x else y)
      by (unfold Np.maximum; now rewrite Hx, orb_false_r).
    rewrite E. destruct (y <=? x)%float eqn:C.
    + destruct (IH x Hx Hl') as [Hr [Hxr Hall]].
      repeat split; try assumption. constructor; [| assumption].
      eapply leb_trans; eassumption.
    + destruct (IH y Hy Hl') as [Hr [Hyr Hall]].
      repeat split; try assumption; [| now constructor].
      eapply leb_trans; [| exact Hyr]. now apply leb_false.
Qed.

Lemma fold_minimum_bound (l : list float) (x : float) :
  is_nan x = false -> Forall (fun y => is_nan y = false) l ->
  let r := fold_left Np.minimum l x in
  is_nan r = false /\ (r <=? x)%float = true
  /\ Forall (fun y => (r <=? y)%float = true) l.
Proof.
  revert x. induction l as [| y l IH]; intros x Hx Hl; simpl.
  - repeat split; [assumption | now apply leb_refl | constructor].
  - inversion Hl as [| ? ? Hy Hl']; subst.
    assert (E : Np.minimum x y = if (x <=? y)%float then x else y)
      by (unfold Np.minimum; now rewrite Hx, orb_false_r).
    rewrite E. destruct (x <=? y)%float eqn:C.
    + destruct (IH x Hx Hl') as [Hr [Hxr Hall]].
      repeat split; try assumption. constructor; [| assumption].
      eapply leb_trans; eassumption.
    + destruct (IH y Hy Hl') as [Hr [Hyr Hall]].
      repeat split; try assumption; [| now constructor].
      eapply leb_trans; [exact Hyr |]. now apply leb_false.
Qed.

(** The two conditional assignments of the scanning loop. *)
Lemma raise_bound (cur m : float) :
  is_nan cur = false -> is_nan m = false ->
  let new := if (cur <? m)%float then m else cur in
  is_nan new = false /\ (cur <=? new)%float = true /\ (m <=? new)%float = true.
Proof.
  intros Hc Hm. destruct (cur <? m)%float eqn:C; cbv zeta.
  - repeat split; [assumption | now apply ltb_leb | now apply leb_refl].
  - repeat split; [assumption | now apply leb_refl | now apply ltb_false].
Qed.

Lemma lower_bound (cur m : float) :
  is_nan cur = false -> is_nan m = false ->
  let new := if (m <? cur)%float then m else cur in
  is_nan new = false /\ (new <=? cur)%float = true /\ (new <=? m)%float = true.
Proof.
  intros Hc Hm. destruct (m <? cur)%float eqn:C; cbv zeta.
  - repeat split; [assumption | now apply ltb_leb | now apply leb_refl].
  - repeat split; [assumption | now apply leb_refl | now apply ltb_false].
Qed.

Lemma scan_poly_value (b : Extent.bounds) (p : float * float) (Poly : Np.ndarray2) :
  Extent.scan_poly b (p :: Poly)
  = Ok (Extent.Bounds
          (let m := fold_left Np.maximum (map fst Poly) (fst p) in
           if (Extent.lon_max b <? m)%float then m else Extent.lon_max b)
          (let m := fold_left Np.minimum (map fst Poly) (fst p) in
           if (m <? Extent.lon_min b)%float then m else Extent.lon_min b)
          (let m := fold_left Np.maximum (map snd Poly) (snd p) in
           if (Extent.lat_max b <? m)%float then m else Extent.lat_max b)
          (let m := fold_left Np.minimum (map snd Poly) (snd p) in
           if (m <? Extent.lat_min b)%float then m else Extent.lat_min b)).
Proof.
  destruct b as [a1 a2 a3 a4]. unfold Extent.scan_poly. simpl.
  destruct (a1 <? _)%float; simpl; destruct (_ <? a2)%float; simpl;
    destruct (a3 <? _)%float; simpl; destruct (_ <? a4)%float; reflexivity.
Qed.

Lemma within_grows (b b' : Extent.bounds) (p : float * float) :
  Spec.within b p -> Spec.grows b b' -> Spec.within b' p.
Proof.
  intros [H1 [H2 [H3 H4]]] [G1 [G2 [G3 G4]]].
  repeat split; eapply leb_trans; eassumption.
Qed.

Lemma scan_poly_encloses (b b' : Extent.bounds) (Poly : Np.ndarray2) :
  Spec.good b -> Spec.no_nan Poly ->
  Extent.scan_poly b Poly = Ok b' ->
  Spec.good b' /\ Spec.grows b b' /\ Forall (Spec.within b') Poly.
Proof.
  intros [B1 [B2 [B3 B4]]] Hnan Hscan.
  destruct Poly as [| p Poly]; [discriminate |].
  rewrite scan_poly_value in Hscan. inversion Hscan as [Hb']; clear Hscan.
  inversion Hnan as [| ? ? [Hp1 Hp2] Hrest]; subst.
  assert (Hfst : Forall (fun y => is_nan y = false) (map fst Poly)).
  { apply Forall_map. eapply Forall_impl; [| exact Hrest]. now intros q [Hq _]. }
  assert (Hsnd : Forall (fun y => is_nan y = false) (map snd Poly)).
  { apply Forall_map. eapply Forall_impl; [| exact Hrest]. now intros q [_ Hq]. }
  destruct (fold_maximum_bound _ _ Hp1 Hfst) as [X1 [X2 X3]].
  destruct (fold_minimum_bound _ _ Hp1 Hfst) as [Y1 [Y2 Y3]].
  destruct (fold_maximum_bound _ _ Hp2 Hsnd) as [Z1 [Z2 Z3]].
  destruct (fold_minimum_bound _ _ Hp2 Hsnd) as [W1 [W2 W3]].
  destruct (raise_bound _ _ B1 X1) as [R1 [R2 R3]].
  destruct (lower_bound _ _ B2 Y1) as [L1 [L2 L3]].
  destruct (raise_bound _ _ B3 Z1) as [S1 [S2 S3]].
  destruct (lower_bound _ _ B4 W1) as [M1 [M2 M3]].
  cbv zeta in *.
  split; [repeat split; assumption |]. split; [repeat split; assumption |].
  rewrite Forall_map in X3, Y3, Z3, W3.
  constructor.
  - repeat split; simpl; eapply leb_trans; eassumption.
  - rewrite Forall_forall in *. intros q Hq.
    repeat split; simpl; eapply leb_trans; try eassumption.
    + now apply Y3.
    + now apply X3.
    + now apply W3.
    + now apply Z3.
Qed.

Lemma grows_refl (b : Extent.bounds) : Spec.good b -> Spec.grows b b.
Proof. intros [B1 [B2 [B3 B4]]]. repeat split; now apply leb_refl. Qed.

Lemma grows_trans (b1 b2 b3 : Extent.bounds) :
  Spec.grows b1 b2 -> Spec.grows b2 b3 -> Spec.grows b1 b3.
Proof.
  intros [A1 [A2 [A3 A4]]] [C1 [C2 [C3 C4]]].
  repeat split; eapply leb_trans; eassumption.
Qed.

Lemma for_each_scan_encloses (polys : list Np.ndarray2) (b b' : Extent.bounds) :
  Spec.good b -> Forall Spec.no_nan polys ->
  for_each Extent.scan_poly polys b = Ok b' ->
  Spec.good b' /\ Spec.grows b b' /\
  forall Poly p, In Poly polys -> In p Poly -> Spec.within b' p.
Proof.
  revert b. induction polys as [| Poly polys IH]; intros b Hb Hnan Hrun.
  - inversion Hrun; subst. split; [exact Hb |]. split; [now apply grows_refl |].
    intros ? ? [].
  - inversion Hnan as [| ? ? HP Hrest]; subst. simpl in Hrun.
    destruct (Extent.scan_poly b Poly) as [e | b1] eqn:Hstep; simpl in Hrun;
      [discriminate |].
    destruct (scan_poly_encloses b b1 Poly Hb HP Hstep) as [Hb1 [G1 W1]].
    destruct (IH b1 Hb1 Hrest Hrun) as [Hb' [G' W']].
    split; [assumption |]. split; [eapply grows_trans; eassumption |].
    intros Q p [<- | HQ] Hp.
    + apply (within_grows b1); [| assumption].
      rewrite Forall_forall in W1. now apply W1.
    + now apply (W' Q).
Qed.

Lemma scan_encloses (all_poly : list Np.ndarray2) (b : Extent.bounds) :
  Forall Spec.no_nan all_poly ->
  Extent.scan all_poly = Ok b ->
  forall Poly p, In Poly all_poly -> In p Poly -> Spec.within b p.
Proof.
  intros Hnan Hscan.
  apply (for_each_scan_encloses all_poly Extent.initial b); try assumption.
  repeat split; reflexivity.
Qed.

(** C3: the pad comes from the longitude span alone and serves both axes;
    the result lists the padded longitude bounds first and the padded
    latitude bounds after them.  The source takes the magnitude of the
    span, which is the span itself once the scanned bounds are in order.
    The scanned bounds enclose every point of rings without NaN.  Rings
    spanning longitudes 0 to 10 and latitudes 0 to 5 give [-1, 11, -1, 6]
    under a buffer of 0.1. *)
Theorem find_extent_pads_by_longitude_span
  (all_poly : list Np.ndarray2) (buffer : float) (b : Extent.bounds) :
  Extent.scan all_poly = Ok b ->
  (Extent.lon_min b <? Extent.lon_max b)%float = true
  \/ Extent.lon_max b = Extent.lon_min b ->
  let pad := ((Extent.lon_max b - Extent.lon_min b) * buffer)%float in
  Extent.find_extent all_poly buffer
  = Ok [Extent.lon_min b - pad; Extent.lon_max b + pad;
        Extent.lat_min b - pad; Extent.lat_max b + pad]%float
  /\ (Forall Spec.no_nan all_poly ->
      forall Poly p, In Poly all_poly -> In p Poly -> Spec.within b p)
  /\ (b = Extent.Bounds 10 0 5 0 ->
      Extent.find_extent all_poly 0.1 = Ok [-1; 11; -1; 6]%float).
Proof.
  intros Hscan Hord pad. unfold Extent.find_extent. rewrite Hscan. simpl.
  split; [| split].
  - unfold Extent.padded. rewrite (abs_sub _ _ Hord). reflexivity.
  - intros Hnan. now apply scan_encloses.
  - intros ->. reflexivity.
Qed.

Lemma find_extent_pads_by_longitude_span_witness :
  Extent.find_extent [[(0, 0); (4, 5)]; [(10, 1); (2, 3)]]%float 0.1
  = Ok [-1; 11; -1; 6]%float.
Proof.
  refine (proj2 (proj2 (find_extent_pads_by_longitude_span
                          [[(0, 0); (4, 5)]; [(10, 1); (2, 3)]]%float 0.1
                          (Extent.Bounds 10 0 5 0) _ _)) _).
  - reflexivity.
  - left. reflexivity.
  - reflexivity.
Defined.

(** C8, as the source has it: no guard is in place.  On an empty collection
    the bounds stay at their infinities, and the padding turns all four
    into NaN; on an empty mapping the plotting loop has nothing to do and
    leaves the axes as they were. *)
Theorem empty_inputs_pass_through :
  Extent.find_extent [] 0.1 = Ok [nan; nan; nan; nan] /\
  (forall buffer,
      Extent.find_extent [] buffer = Ok (Extent.padded Extent.initial buffer)) /\
  (forall ax_units digits lw alpha values n ax,
      Plot.plot_loop ax_units digits lw alpha [] values n ax = Ok ax) /\
  (forall units ax_units digits lw alpha ax,
      Plot.plot_isolines units ax_units digits lw alpha [] ax
      = Ok match Units.check units ax_units with
           | Some d => Plot.Rejected d
           | None => Plot.Plotted ax
           end).
Proof.
  repeat split; try reflexivity.
  intros units ax_units digits lw alpha ax. unfold Plot.plot_isolines. simpl.
  destruct (Units.check units ax_units) eqn:Hc; [reflexivity |].
  destruct (convert_checked units ax_units [] Hc (Forall_nil _)) as [v [Hv _]].
  simpl in Hv. rewrite Hv. reflexivity.
Qed.

(** C8, as stated, fails: neither call raises. *)
Lemma empty_inputs_not_rejected :
  (forall e, Extent.find_extent [] 0.1 <> Raise e) /\
  (forall e, Plot.plot_isolines "seconds" "minutes" 1 0 0.3 [] [] <> Raise e).
Proof.
  split; intros e; discriminate.
Qed.

(** ** Dictionaries and loops *)

Lemma bind_ok {A B : Type} (a : A) (k : A -> result B) :
  (x <- Ok a ;; k x) = k a.
Proof. reflexivity. Qed.

Lemma for_each_snoc {A S : Type} (body : S -> A -> result S) (xs : list A) (x : A) (s : S) :
  for_each body (xs ++ [x]) s = (s' <- for_each body xs s ;; body s' x).
Proof.
  revert s. induction xs as [| y xs IH]; intros s; simpl.
  - destruct (body s x); reflexivity.
  - destruct (body s y); simpl; [reflexivity | apply IH].
Qed.

Lemma getitem_setitem_eq {V : Type} (d : Dict.t V) (k : Z) (v : V) :
  Dict.getitem (Dict.setitem d k v) k = Ok v.
Proof.
  induction d as [| [k' v'] d IH]; simpl.
  - now rewrite Z.eqb_refl.
  - destruct (Z.eqb_spec k' k); simpl.
    + now rewrite Z.eqb_refl.
    + destruct (Z.eqb_spec k' k); [contradiction | assumption].
Qed.

Lemma getitem_setitem_neq {V : Type} (d : Dict.t V) (k k' : Z) (v : V) :
  k <> k' -> Dict.getitem (Dict.setitem d k v) k' = Dict.getitem d k'.
Proof.
  intros Hne. induction d as [| [k0 v0] d IH]; simpl.
  - destruct (Z.eqb_spec k k'); [contradiction | reflexivity].
  - destruct (Z.eqb_spec k0 k); simpl.
    + subst k0. destruct (Z.eqb_spec k k'); [contradiction | reflexivity].
    + destruct (Z.eqb_spec k0 k'); [reflexivity | assumption].
Qed.

Lemma setitem_new {V : Type} (d : Dict.t V) (k : Z) (v : V) :
  ~ In k (Dict.keys d) -> Dict.setitem d k v = d ++ [(k, v)].
Proof.
  induction d as [| [k' v'] d IH]; simpl; intros Hn; [reflexivity |].
  destruct (Z.eqb_spec k' k); [tauto |].
  f_equal. apply IH. tauto.
Qed.

Lemma keys_setitem_old {V : Type} (d : Dict.t V) (k : Z) (v : V) :
  In k (Dict.keys d) -> Dict.keys (Dict.setitem d k v) = Dict.keys d.
Proof.
  induction d as [| [k' v'] d IH]; simpl; intros Hin; [contradiction |].
  destruct (Z.eqb_spec k' k); simpl.
  - now subst.
  - f_equal. apply IH. destruct Hin; [contradiction | assumption].
Qed.

Lemma In_setitem {V : Type} (d : Dict.t V) (k : Z) (v : V) (kv : Z * V) :
  In kv (Dict.setitem d k v) -> kv = (k, v) \/ In kv d.
Proof.
  induction d as [| [k' v'] d IH]; simpl.
  - intros [H | []]. now left.
  - destruct (Z.eqb_spec k' k); simpl.
    + intros [H | H]; [now left | right; now right].
    + intros [H | H]; [right; now left |].
      destruct (IH H); [now left | right; now right].
Qed.

Lemma NoDup_keys_setitem {V : Type} (d : Dict.t V) (k : Z) (v : V) :
  NoDup (Dict.keys d) -> NoDup (Dict.keys (Dict.setitem d k v)).
Proof.
  intros Hnd. destruct (in_dec Z.eq_dec k (Dict.keys d)) as [Hin | Hn].
  - now rewrite keys_setitem_old.
  - rewrite setitem_new by assumption. unfold Dict.keys. rewrite map_app. simpl.
    apply NoDup_app; [assumption | repeat constructor; tauto |].
    intros x Hx [Hk | []]. subst. contradiction.
Qed.

Lemma getitem_In {V : Type} (d : Dict.t V) (k : Z) (v : V) :
  NoDup (Dict.keys d) -> In (k, v) d -> Dict.getitem d k = Ok v.
Proof.
  induction d as [| [k' v'] d IH]; simpl; intros Hnd Hin; [contradiction |].
  inversion Hnd as [| ? ? Hnotin Hnd']; subst.
  destruct Hin as [Heq | Hin].
  - inversion Heq; subst. now rewrite Z.eqb_refl.
  - destruct (Z.eqb_spec k' k).
    + subst. exfalso. apply Hnotin. change k with (fst (k, v)). now apply in_map.
    + now apply IH.
Qed.

(** ** The decoder *)

Section DecoderFacts.

Variable iter_decode : string -> result (list Decoder.latlng).

Let ring_of := Decoder.ring_of iter_decode.
Let decode := Decoder.here_isolines_to_WGS84 iter_decode.

Lemma last_with_snoc (k : Z) (response : list Decoder.isoline) (iso : Decoder.isoline) :
  Spec.last_with k (response ++ [iso])
  = if (Decoder.range_value iso =? k)%Z then Some iso else Spec.last_with k response.
Proof.
  unfold Spec.last_with. rewrite rev_app_distr. reflexivity.
Qed.

(** What the decoding loop builds when every entry decodes: a mapping whose
    keys are the declared range values, each bound to the ring of the last
    entry declaring it, and listed in response order when no value
    repeats. *)
Lemma decode_total (response : list Decoder.isoline) :
  (forall iso, In iso response -> exists r, ring_of iso = Ok r) ->
  exists d,
    decode response = Ok d /\
    NoDup (Dict.keys d) /\
    (forall k, In k (Dict.keys d) <-> In k (map Decoder.range_value response)) /\
    (forall k, Dict.getitem d k
               = match Spec.last_with k response with
                 | Some iso => ring_of iso
                 | None => Raise KeyError
                 end) /\
    (NoDup (map Decoder.range_value response) ->
     Dict.keys d = map Decoder.range_value response).
Proof.
  unfold decode, Decoder.here_isolines_to_WGS84.
  induction response as [| iso response IH] using rev_ind; intros Hdec.
  - exists []. simpl. repeat split; try tauto. constructor.
  - destruct IH as [d [Hd [Hnd [Hkeys [Hget Hord]]]]].
    { intros i Hi. apply Hdec. apply in_or_app. now left. }
    destruct (Hdec iso) as [r Hr]; [apply in_or_app; right; now left |].
    exists (Dict.setitem d (Decoder.range_value iso) r).
    rewrite for_each_snoc, Hd. simpl. unfold Decoder.decode_isoline.
    fold ring_of. rewrite Hr. simpl.
    split; [reflexivity |]. split; [now apply NoDup_keys_setitem |].
    split; [| split].
    + intros k. rewrite map_app, in_app_iff. simpl. rewrite <- Hkeys.
      destruct (in_dec Z.eq_dec (Decoder.range_value iso) (Dict.keys d)) as [Hin | Hn].
      * rewrite keys_setitem_old by assumption.
        split; [tauto |]. intros [H | [H | []]]; [assumption | now subst].
      * rewrite setitem_new by assumption. unfold Dict.keys at 1.
        rewrite map_app, in_app_iff. simpl. reflexivity.
    + intros k. rewrite last_with_snoc.
      destruct (Z.eqb_spec (Decoder.range_value iso) k) as [-> | Hne].
      * rewrite getitem_setitem_eq. now symmetry.
      * rewrite getitem_setitem_neq by assumption. apply Hget.
    + rewrite map_app. simpl. intros Hnodup.
      apply NoDup_remove in Hnodup as [Hnodup Hnotin]. rewrite app_nil_r in *.
      rewrite setitem_new by (rewrite Hkeys; assumption).
      unfold Dict.keys in *. rewrite map_app. simpl. now rewrite Hord.
Qed.

(** C9, as the source has it: a repeated range value is not rejected.  When
    every entry decodes the call succeeds, the ring of the last entry that
    declares a value is the one kept under it, and without repeats the
    mapping has one key per entry, the declared values in response order:
    three entries give three keys. *)
Theorem decode_keeps_last_ring (response : list Decoder.isoline) :
  (forall iso, In iso response -> exists r, ring_of iso = Ok r) ->
  exists d,
    decode response = Ok d /\
    (forall iso, In iso response ->
       exists iso', Spec.last_with (Decoder.range_value iso) response = Some iso'
                    /\ Decoder.range_value iso' = Decoder.range_value iso
                    /\ Dict.getitem d (Decoder.range_value iso) = ring_of iso') /\
    (NoDup (map Decoder.range_value response) ->
     Dict.keys d = map Decoder.range_value response
     /\ Dict.len d = List.length response
     /\ (List.length response = 3%nat -> Dict.len d = 3%nat)
     /\ forall iso, In iso response ->
          Dict.getitem d (Decoder.range_value iso) = ring_of iso).
Proof.
  intros Hdec. destruct (decode_total response Hdec) as [d [Hd [Hnd [Hkeys [Hget Hord]]]]].
  exists d. split; [assumption |].
  assert (Hlast : forall iso, In iso response ->
            exists iso', Spec.last_with (Decoder.range_value iso) response = Some iso'
                         /\ Decoder.range_value iso' = Decoder.range_value iso).
  { intros iso Hin. unfold Spec.last_with.
    destruct (find _ (rev response)) as [iso' |] eqn:F.
    - exists iso'. split; [reflexivity |]. apply find_some in F as [_ F].
      now apply Z.eqb_eq in F.
    - pose proof (find_none _ _ F iso (proj1 (in_rev _ _) Hin)) as C.
      simpl in C. rewrite Z.eqb_refl in C. discriminate. }
  split.
  - intros iso Hin. destruct (Hlast iso Hin) as [iso' [Hl Hv]].
    exists iso'. repeat split; try assumption. now rewrite Hget, Hl.
  - intros Hnodup. specialize (Hord Hnodup).
    assert (Hlen : Dict.len d = List.length response).
    { unfold Dict.len. rewrite <- (length_map fst d).
      change (map fst d) with (Dict.keys d). now rewrite Hord, length_map. }
    repeat split; try assumption; try congruence.
    intros iso Hin. destruct (Hlast iso Hin) as [iso' [Hl Hv]].
    rewrite Hget, Hl. f_equal.
    (* without repeats the last entry with this value is the entry itself *)
    unfold Spec.last_with in Hl. apply find_some in Hl as [Hin' _].
    apply in_rev in Hin'.
    clear - Hnodup Hin Hin' Hv.
    induction response as [| i response IH]; [contradiction |].
    simpl in Hnodup. inversion Hnodup as [| ? ? Hnotin Hnd]; subst.
    destruct Hin as [-> | Hin], Hin' as [-> | Hin']; try reflexivity.
    + exfalso. apply Hnotin. rewrite <- Hv. now apply in_map.
    + exfalso. apply Hnotin. rewrite Hv. now apply in_map.
    + now apply IH.
Qed.

End DecoderFacts.

Lemma decode_keeps_last_ring_witness :
  exists d, Decoder.here_isolines_to_WGS84 Sample.codec Sample.three_isolines = Ok d
            /\ Dict.keys d = [600; 1200; 1800]%Z /\ Dict.len d = 3%nat.
Proof.
  destruct (decode_keeps_last_ring Sample.codec Sample.three_isolines)
    as [d [Hd [_ Hdistinct]]].
  - simpl. intros iso [<- | [<- | [<- | []]]]; eexists; reflexivity.
  - exists d. split; [exact Hd |].
    destruct Hdistinct as [Hkeys [_ [Hthree _]]].
    + simpl. repeat constructor; simpl; intuition discriminate.
    + split; [exact Hkeys | apply Hthree; reflexivity].
Defined.

(** C9, as stated, fails: two entries that declare the same range value
    decode without an error, and the mapping holds the second ring alone. *)
Lemma repeated_value_not_rejected :
  Decoder.here_isolines_to_WGS84 Sample.codec Sample.repeated_value
  = Ok [(600%Z, [(52, 13); (53, 13); (53, 14); (52, 14)]%float)]
  /\ forall e, Decoder.here_isolines_to_WGS84 Sample.codec Sample.repeated_value
               <> Raise e.
Proof.
  split; [reflexivity | intros e; discriminate].
Qed.

(** ** Column order *)

Lemma combine_swap (a : Np.ndarray2) :
  combine (map snd a) (map fst a) = map Spec.swap a.
Proof.
  induction a as [| p a IH]; simpl; [reflexivity | now rewrite IH].
Qed.

Lemma swap_columns_nonempty (a : Np.ndarray2) :
  a <> [] -> Plot.swap_columns a = Ok (map Spec.swap a).
Proof.
  destruct a as [| p a]; [congruence |]. intros _.
  unfold Plot.swap_columns. simpl. now rewrite combine_swap.
Qed.

Lemma swap_columns_inv (a b : Np.ndarray2) :
  Plot.swap_columns a = Ok b -> a <> [] /\ b = map Spec.swap a.
Proof.
  destruct a as [| p a]; [discriminate |]. intros H.
  rewrite swap_columns_nonempty in H by discriminate.
  inversion H. split; [discriminate | reflexivity].
Qed.

Lemma comprehension_swap_ok (rings : list Np.ndarray2) :
  Forall (fun r => r <> []) rings ->
  comprehension Plot.swap_columns rings = Ok (map (map Spec.swap) rings).
Proof.
  induction 1 as [| r rings Hr _ IH]; simpl; [reflexivity |].
  rewrite swap_columns_nonempty by assumption. simpl. now rewrite IH.
Qed.

Lemma comprehension_swap_inv (rings polygons : list Np.ndarray2) :
  comprehension Plot.swap_columns rings = Ok polygons ->
  Forall (fun r => r <> []) rings /\ polygons = map (map Spec.swap) rings.
Proof.
  revert polygons. induction rings as [| r rings IH]; simpl; intros polygons H.
  - inversion H. split; [constructor | reflexivity].
  - destruct (Plot.swap_columns r) as [e | r'] eqn:Hr; simpl in H; [discriminate |].
    destruct (comprehension Plot.swap_columns rings) as [e | ps] eqn:Hps;
      simpl in H; [discriminate |].
    inversion H; subst. apply swap_columns_inv in Hr as [Hne ->].
    destruct (IH ps eq_refl) as [Hall ->].
    split; [now constructor | reflexivity].
Qed.

(** Looking the keys of a mapping up again finds its rings, in order. *)
Lemma comprehension_lookup (d0 d : Dict.t Np.ndarray2) :
  (forall k v, In (k, v) d -> Dict.getitem d0 k = Ok v) ->
  comprehension (fun value => a <- Dict.getitem d0 value ;; Plot.swap_columns a)
                (Dict.keys d)
  = comprehension Plot.swap_columns (map snd d).
Proof.
  unfold Dict.keys.
  induction d as [| [k v] d IH]; intros Hfind; [reflexivity |].
  assert (Hrest : forall k' v', In (k', v') d -> Dict.getitem d0 k' = Ok v')
    by (intros k' v' Hin; apply Hfind; now right).
  specialize (IH Hrest). simpl in *.
  rewrite (Hfind k v) by now left. simpl.
  destruct (Plot.swap_columns v); simpl; [reflexivity |].
  now rewrite IH.
Qed.

Lemma polygons_of_dict (d : Dict.t Np.ndarray2) :
  NoDup (Dict.keys d) ->
  comprehension (fun value => a <- Dict.getitem d value ;; Plot.swap_columns a)
                (Dict.keys d)
  = comprehension Plot.swap_columns (map snd d).
Proof.
  intros Hnd. apply comprehension_lookup. intros k v. now apply getitem_In.
Qed.

(** Scanning rings whose columns are exchanged finds the same bounds with
    their roles exchanged. *)
Lemma scan_poly_flip (b : Extent.bounds) (Poly : Np.ndarray2) :
  Extent.scan_poly (Spec.flip b) (map Spec.swap Poly)
  = match Extent.scan_poly b Poly with
    | inl e => inl e
    | inr b' => inr (Spec.flip b')
    end.
Proof.
  destruct Poly as [| [x y] Poly]; [reflexivity |].
  destruct b as [a1 a2 a3 a4].
  unfold Extent.scan_poly, Np.column0, Np.column1, Np.max, Np.min.
  simpl.
  rewrite !map_map.
  rewrite (map_ext (fun p => fst (Spec.swap p)) snd) by reflexivity.
  rewrite (map_ext (fun p => snd (Spec.swap p)) fst) by reflexivity.
  generalize (fold_left Np.maximum (map fst Poly) x) as xmax.
  generalize (fold_left Np.minimum (map fst Poly) x) as xmin.
  generalize (fold_left Np.maximum (map snd Poly) y) as ymax.
  generalize (fold_left Np.minimum (map snd Poly) y) as ymin.
  intros ymin ymax xmin xmax.
  destruct (a1 <? xmax)%float eqn:C1, (xmin <? a2)%float eqn:C2,
           (a3 <? ymax)%float eqn:C3, (ymin <? a4)%float eqn:C4;
    simpl; rewrite ?C1, ?C2, ?C3, ?C4; simpl; rewrite ?C1, ?C2, ?C3, ?C4;
    simpl; rewrite ?C1, ?C2, ?C3, ?C4; reflexivity.
Qed.

Lemma for_each_scan_flip (polys : list Np.ndarray2) (b : Extent.bounds) :
  for_each Extent.scan_poly (map (map Spec.swap) polys) (Spec.flip b)
  = match for_each Extent.scan_poly polys b with
    | inl e => inl e
    | inr b' => inr (Spec.flip b')
    end.
Proof.
  revert b. induction polys as [| p polys IH]; intros b; simpl; [reflexivity |].
  rewrite scan_poly_flip. destruct (Extent.scan_poly b p); simpl; [reflexivity |].
  apply IH.
Qed.

Section HandOff.

Variable iter_decode : string -> result (list Decoder.latlng).

(** Every ring of the decoder's result is the row form of a decoded
    polyline, and the keys of the result are distinct. *)
Lemma decode_rings (response : list Decoder.isoline) (d : Dict.t Np.ndarray2) :
  Decoder.here_isolines_to_WGS84 iter_decode response = Ok d ->
  NoDup (Dict.keys d) /\
  forall k ring, In (k, ring) d ->
    exists iso outer ps,
      In iso response /\ Decoder.range_value iso = k /\
      nth_error (Decoder.polygons_outer iso) 0 = Some outer /\
      iter_decode outer = Ok ps /\ ring = Decoder.rows ps.
Proof.
  unfold Decoder.here_isolines_to_WGS84. revert d.
  induction response as [| iso response IH] using rev_ind; intros d H.
  - inversion H. split; [constructor | intros k ring []].
  - rewrite for_each_snoc in H.
    destruct (for_each _ response Dict.empty) as [e | d'] eqn:Hd'; simpl in H;
      [discriminate |].
    destruct (IH d' eq_refl) as [Hnd Hrings].
    unfold Decoder.decode_isoline, Decoder.ring_of, getitem in H.
    destruct (nth_error (Decoder.polygons_outer iso) 0) as [outer |] eqn:Ho;
      simpl in H; [| discriminate].
    destruct (iter_decode outer) as [e | ps] eqn:Hps; simpl in H; [discriminate |].
    inversion H; subst d. split; [now apply NoDup_keys_setitem |].
    intros k ring Hin. apply In_setitem in Hin as [Heq | Hin].
    + inversion Heq; subst. exists iso, outer, ps.
      repeat split; try assumption. apply in_or_app. right. now left.
    + destruct (Hrings k ring Hin) as [i [o [p [Hi Hrest]]]].
      exists i, o, p. split; [apply in_or_app; now left | exact Hrest].
Qed.

End HandOff.

(** ** Building the regions *)

Lemma boundary_codes_nonempty (poly : Np.ndarray2) :
  poly <> [] -> Plot.boundary_codes poly = Ok (Spec.boundary poly).
Proof.
  destruct poly as [| p poly]; [congruence |]. intros _.
  unfold Plot.boundary_codes, Spec.boundary. simpl. rewrite Nat.sub_0_r.
  do 2 f_equal. induction poly as [| q poly IH]; simpl; [reflexivity | now rewrite IH].
Qed.

Lemma boundary_length (poly : Np.ndarray2) :
  poly <> [] -> List.length (Spec.boundary poly) = List.length poly.
Proof.
  destruct poly as [| p poly]; [congruence |]. intros _.
  unfold Spec.boundary. simpl. now rewrite repeat_length, Nat.sub_0_r.
Qed.

Lemma make_path_moveto (vertices : Np.ndarray2) (codes : list Plot.code) :
  List.length (Plot.MOVETO :: codes) = List.length vertices ->
  Plot.make_path vertices (Plot.MOVETO :: codes)
  = Ok (Plot.Path vertices (Plot.MOVETO :: codes)).
Proof.
  intros H. unfold Plot.make_path. rewrite H, Nat.eqb_refl. reflexivity.
Qed.

Lemma patch_between_nonempty (poly1 poly2 : Np.ndarray2) :
  poly1 <> [] -> poly2 <> [] ->
  Plot.patch_between poly1 poly2 = Ok (Spec.annulus poly1 poly2).
Proof.
  intros H1 H2. unfold Plot.patch_between.
  rewrite !boundary_codes_nonempty by assumption. simpl.
  unfold Spec.annulus. change (Spec.boundary poly1 ++ Spec.boundary poly2)
    with (Plot.MOVETO :: repeat Plot.LINETO (List.length poly1 - 1)
                      ++ Spec.boundary poly2).
  apply make_path_moveto.
  change (Plot.MOVETO :: repeat Plot.LINETO (List.length poly1 - 1)
                      ++ Spec.boundary poly2)
    with (Spec.boundary poly1 ++ Spec.boundary poly2).
  now rewrite !length_app, !boundary_length, length_rev.
Qed.

Lemma item_in_range (v : Units.ndarray1) (i : nat) :
  (i < Units.len v)%nat -> exists x, Units.item v i = Ok x.
Proof.
  intros Hi. destruct v as [l | l | l | l]; simpl in *; unfold getitem;
    destruct (nth_error l i) eqn:E; simpl; eauto;
    apply nth_error_None in E; lia.
Qed.

Lemma region_first (rings : list Np.ndarray2) (ring : Np.ndarray2) :
  nth_error rings 0 = Some ring ->
  Spec.region rings 0 = Some (Spec.simple_region ring).
Proof.
  destruct rings; simpl; intros H; inversion H; reflexivity.
Qed.

Lemma region_next (rings : list Np.ndarray2) (j : nat) (outer inner : Np.ndarray2) :
  nth_error rings (S j) = Some outer ->
  nth_error rings j = Some inner ->
  Spec.region rings (S j) = Some (Spec.annulus outer inner).
Proof.
  intros Ho Hi. unfold Spec.region. now rewrite Ho, Hi.
Qed.

Section Regions.

Variables (ax_units : string) (label_rounding : Z) (contour_lines alpha : float).
Variables (polygons : list Np.ndarray2) (v : Units.ndarray1) (n : nat).

Hypothesis rings_nonempty : Forall (fun r => r <> []) polygons.
Hypothesis values_enough : Units.len v = List.length polygons.

Let plot_ring :=
  Plot.plot_ring ax_units label_rounding contour_lines alpha polygons (Some v) n.

Let region_at := Spec.region polygons.

Lemma nth_nonempty (i : nat) (r : Np.ndarray2) :
  nth_error polygons i = Some r -> r <> [].
Proof.
  intros H. apply nth_error_In in H.
  rewrite Forall_forall in rings_nonempty. now apply rings_nonempty.
Qed.

Lemma plot_ring_ok (ax : list Plot.patch) (i : nat) :
  (i < List.length polygons)%nat ->
  exists p, plot_ring ax i = Ok (ax ++ [p]) /\ region_at i = Some (Plot.patch_path p).
Proof.
  intros Hi. unfold plot_ring, Plot.plot_ring.
  destruct (item_in_range v i) as [hi Hhi]; [lia |].
  destruct (nth_error polygons i) as [poly |] eqn:Hpoly;
    [| apply nth_error_None in Hpoly; lia].
  pose proof (nth_nonempty i poly Hpoly) as Hne.
  destruct i as [| j]; simpl Nat.eqb; cbv iota.
  - unfold getitem. rewrite Hpoly. simpl.
    rewrite boundary_codes_nonempty by assumption. simpl.
    unfold Spec.boundary at 1. rewrite make_path_moveto
      by (change (Plot.MOVETO :: repeat Plot.LINETO (List.length poly - 1))
            with (Spec.boundary poly); now apply boundary_length).
    simpl. rewrite Hhi. simpl. eexists. split; [reflexivity |].
    now apply region_first.
  - replace (S j - 1)%nat with j by lia.
    destruct (nth_error polygons j) as [prev |] eqn:Hprev;
      [| apply nth_error_None in Hprev; lia].
    pose proof (nth_nonempty j prev Hprev) as Hne'.
    destruct (item_in_range v j) as [lo Hlo]; [lia |].
    unfold getitem. rewrite Hpoly, Hprev. simpl.
    rewrite patch_between_nonempty by assumption. simpl.
    rewrite Hlo. simpl. rewrite Hhi. simpl.
    eexists. split; [reflexivity |].
    now apply region_next.
Qed.

Lemma plot_range_ok (m a : nat) (ax : list Plot.patch) :
  (a + m <= List.length polygons)%nat ->
  exists ps,
    for_each plot_ring (seq a m) ax = Ok (ax ++ ps) /\
    List.length ps = m /\
    forall j, (j < m)%nat ->
      exists p, nth_error ps j = Some p /\ region_at (a + j) = Some (Plot.patch_path p).
Proof.
  revert a ax. induction m as [| m IH]; intros a ax Hle.
  - exists []. simpl. rewrite app_nil_r. repeat split. intros j Hj. lia.
  - destruct (plot_ring_ok ax a) as [p [Hp Hr]]; [lia |].
    destruct (IH (S a) (ax ++ [p])) as [ps [Hps [Hlen Hnth]]]; [lia |].
    exists (p :: ps). simpl. rewrite Hp. simpl. rewrite Hps, <- app_assoc.
    repeat split; [simpl; now rewrite Hlen |].
    intros [| j] Hj.
    + exists p. rewrite Nat.add_0_r. now split.
    + destruct (Hnth j) as [q [Hq Hrq]]; [lia |].
      exists q. replace (a + S j)%nat with (S a + j)%nat by lia. now split.
Qed.

Lemma plot_loop_ok (ax : list Plot.patch) :
  exists ps,
    Plot.plot_loop ax_units label_rounding contour_lines alpha polygons (Some v) n ax
    = Ok (ax ++ ps) /\
    List.length ps = List.length polygons /\
    forall i, (i < List.length polygons)%nat ->
      exists p, nth_error ps i = Some p /\ region_at i = Some (Plot.patch_path p).
Proof.
  unfold Plot.plot_loop. apply (plot_range_ok (List.length polygons) 0 ax). lia.
Qed.

End Regions.

(** C1: for [N >= 1] rings the loop adds exactly [N] patches to the axes.
    The first is the first ring alone, with one move and then lines.  Patch
    [i >= 1] is one compound path: ring [i] in its own order followed by
    ring [i - 1] in reverse, each of the two with its own move followed by
    lines, so that the code at the seam is a move and no line joins the two
    boundaries. *)
Theorem annulus_per_ring
  (ax_units : string) (label_rounding : Z) (contour_lines alpha : float)
  (rings : list Np.ndarray2) (v : Units.ndarray1) (n : nat) (ax : list Plot.patch) :
  rings <> [] ->
  Forall (fun r => r <> []) rings ->
  Units.len v = List.length rings ->
  exists regions,
    Plot.plot_loop ax_units label_rounding contour_lines alpha rings (Some v) n ax
    = Ok (ax ++ regions) /\
    List.length regions = List.length rings /\
    (exists ring0 p0,
        nth_error rings 0 = Some ring0 /\ nth_error regions 0 = Some p0 /\
        Plot.patch_path p0
        = Plot.Path ring0
            (Plot.MOVETO :: repeat Plot.LINETO (List.length ring0 - 1))) /\
    (forall i, (1 <= i < List.length rings)%nat ->
       exists outer inner p,
         nth_error rings i = Some outer /\
         nth_error rings (i - 1) = Some inner /\
         nth_error regions i = Some p /\
         Plot.vertices (Plot.patch_path p) = outer ++ rev inner /\
         Plot.codes (Plot.patch_path p)
         = (Plot.MOVETO :: repeat Plot.LINETO (List.length outer - 1))
           ++ (Plot.MOVETO :: repeat Plot.LINETO (List.length inner - 1)) /\
         nth_error (Plot.codes (Plot.patch_path p)) (List.length outer)
         = Some Plot.MOVETO).
Proof.
  intros Hne Hrings Hlen.
  destruct (plot_loop_ok ax_units label_rounding contour_lines alpha
              rings v n Hrings Hlen ax) as [regions [Hrun [Hcount Hat]]].
  exists regions. split; [exact Hrun |]. split; [exact Hcount |]. split.
  - destruct rings as [| ring0 rest]; [congruence |].
    destruct (Hat 0%nat) as [p0 [Hp0 Hr0]]; [simpl; lia |].
    exists ring0, p0. repeat split; try assumption.
    simpl in Hr0. now inversion Hr0.
  - intros i Hi. destruct i as [| j]; [lia |].
    destruct (Hat (S j)) as [p [Hp Hr]]; [lia |].
    unfold Spec.region in Hr. replace (S j - 1)%nat with j by lia.
    destruct (nth_error rings (S j)) as [outer |] eqn:Ho; [| discriminate].
    destruct (nth_error rings j) as [inner |] eqn:Hin; [| discriminate].
    inversion Hr as [Hpath]. exists outer, inner, p.
    assert (Houter : outer <> []).
    { apply nth_error_In in Ho. rewrite Forall_forall in Hrings. now apply Hrings. }
    rewrite <- Hpath. repeat split; [exact Hp |].
    change (nth_error (Spec.boundary outer ++ Spec.boundary inner) (List.length outer)
            = Some Plot.MOVETO).
    rewrite <- (boundary_length outer Houter).
    rewrite nth_error_app2 by lia. now rewrite Nat.sub_diag.
Qed.

Lemma annulus_per_ring_witness :
  exists regions,
    Plot.plot_loop "minutes" 1 0 0.3 [Sample.ring_a; Sample.ring_b]
      (Some (Units.IntArray [600; 1200]%Z)) 2 [] = Ok regions
    /\ List.length regions = 2%nat.
Proof.
  destruct (annulus_per_ring "minutes" 1 0 0.3 [Sample.ring_a; Sample.ring_b]
              (Units.IntArray [600; 1200]%Z) 2 [])
    as [regions [Hrun [Hcount _]]].
  - discriminate.
  - repeat constructor; discriminate.
  - reflexivity.
  - exists regions. split; [exact Hrun | exact Hcount].
Defined.

(** ** The order in which rings are taken *)

Lemma sort_by_range_sorted {V : Type} (d : Dict.t V) :
  Sorted Z.le (Dict.keys d) -> Spec.sort_by_range d = d.
Proof.
  unfold Dict.keys. induction d as [| kv d IH]; simpl; intros Hs; [reflexivity |].
  inversion Hs as [| ? ? Hs' Hhd]; subst. rewrite (IH Hs').
  destruct d as [| kv' d]; simpl; [reflexivity |].
  inversion Hhd; subst. destruct (Z.leb_spec (fst kv) (fst kv')); [reflexivity | lia].
Qed.

Lemma swapped_nonempty (rings : list Np.ndarray2) :
  Forall (fun r => r <> []) rings ->
  Forall (fun r => r <> []) (map (map Spec.swap) rings).
Proof.
  intros H. apply Forall_map. eapply Forall_impl; [| exact H].
  intros [| p r] Hr; [congruence | discriminate].
Qed.

(** C2: nothing sorts the keys.  On the mapping [{1200: ring_b, 600:
    ring_a}], whose keys were inserted largest first, the first patch is
    the larger ring whole, labelled from 0.0 to 20.0 minutes, and the second
    is the path of the smaller ring followed by the larger one reversed,
    labelled from 20.0 to 10.0: the larger isoline lies over the smaller
    one.  The same mapping with its keys in ascending order gives the
    smaller ring whole and then the region between the two. *)
Theorem descending_keys_overlap :
  Permutation Sample.ascending Sample.descending /\
  Spec.sort_by_range Sample.descending = Sample.ascending /\
  (exists p0 p1,
      Plot.plot_isolines "seconds" "minutes" 1 0 0.3 Sample.descending []
      = Ok (Plot.Plotted [p0; p1]) /\
      Plot.patch_path p0 = Spec.simple_region (map Spec.swap Sample.ring_b) /\
      Plot.patch_label p0 = Plot.Label (PyFloat 0) (PyFloat 20) 1 "minutes" /\
      Plot.patch_path p1
      = Spec.annulus (map Spec.swap Sample.ring_a) (map Spec.swap Sample.ring_b) /\
      Plot.patch_label p1 = Plot.Label (PyFloat 20) (PyFloat 10) 1 "minutes") /\
  (exists q0 q1,
      Plot.plot_isolines "seconds" "minutes" 1 0 0.3 Sample.ascending []
      = Ok (Plot.Plotted [q0; q1]) /\
      Plot.patch_path q0 = Spec.simple_region (map Spec.swap Sample.ring_a) /\
      Plot.patch_label q0 = Plot.Label (PyFloat 0) (PyFloat 10) 1 "minutes" /\
      Plot.patch_path q1
      = Spec.annulus (map Spec.swap Sample.ring_b) (map Spec.swap Sample.ring_a) /\
      Plot.patch_label q1 = Plot.Label (PyFloat 10) (PyFloat 20) 1 "minutes").
Proof.
  split; [apply perm_swap |]. split; [reflexivity |]. split.
  - do 2 eexists. split; [vm_compute; reflexivity |].
    repeat split; vm_compute; reflexivity.
  - do 2 eexists. split; [vm_compute; reflexivity |].
    repeat split; vm_compute; reflexivity.
Qed.

(** ** The scale bar length *)

Lemma Qpower10_pos (k : Z) : (0 < Qpower 10 k)%Q.
Proof. apply Qpower_0_lt. reflexivity. Qed.



Lemma Qpower10_mono (a b : Z) : (0 <= a <= b)%Z -> (Qpower 10 a <= Qpower 10 b)%Q.
Proof.
  intros H. change 10%Q with (inject_Z 10).
  rewrite <- !Zpower_Qpower by lia. rewrite <- Zle_Qle.
  apply Z.pow_le_mono_r; lia.
Qed.






Lemma scale_number_deeper (depth depth' : nat) (ndim : Z) (x : float) (v : Z) :
  ScaleBar.scale_number depth ndim x = Ok v ->
  (depth <= depth')%nat ->
  ScaleBar.scale_number depth' ndim x = Ok v.
Proof.
  revert depth' x. induction depth as [| depth IH]; intros depth' x H Hle.
  - discriminate.
  - destruct depth' as [| depth']; [lia |]. simpl in *.
    destruct (ScaleBar.in_heads (Builtin.str_head x)); [exact H |].
    destruct (Builtin.pow10 ndim); simpl in *; [discriminate |].
    apply IH; [exact H | lia].
Qed.

Lemma to_Q_positive (x : float) (q : Q) :
  F64.to_Q x = Some q -> (0 < q)%Q ->
  exists m e, Prim2SF x = S754_finite false m e
              /\ q = (inject_Z (Zpos m) * Qpower 2 e)%Q.
Proof.
  unfold F64.to_Q. intros H Hq.
  destruct (Prim2SF x) as [s | s | | s m e]; try discriminate; inversion H; subst.
  - now apply Qlt_irrefl in Hq.
  - destruct s; [| eauto]. exfalso. simpl in Hq.
    pose proof (Qpower_0_lt 2 e eq_refl) as Hp.
    assert (Hneg : (inject_Z (Z.neg m) * Qpower 2 e < 0 * Qpower 2 e)%Q)
      by (apply Qmult_lt_compat_r; [exact Hp | unfold Qlt; simpl; lia]).
    rewrite Qmult_0_l in Hneg. apply (Qlt_irrefl 0). exact (Qlt_trans _ _ _ Hq Hneg).
Qed.

(** Powers of ten in any two exponents. *)
Lemma Qpower10_le (a b : Z) : (a <= b)%Z -> (Qpower 10 a <= Qpower 10 b)%Q.
Proof.
  intros H. replace b with (a + (b - a))%Z by lia.
  rewrite Qpower_plus by discriminate.
  rewrite <- (Qmult_1_r (Qpower 10 a)) at 1.
  apply Qmult_le_l; [apply Qpower10_pos |].
  change 1%Q with (Qpower 10 0). apply Qpower10_mono. lia.
Qed.

Lemma Qpower10_lt_inv (a b : Z) : (Qpower 10 a < Qpower 10 b)%Q -> (a < b)%Z.
Proof.
  intros H. destruct (Z_lt_le_dec a b) as [L | G]; [exact L |].
  exfalso. apply (Qlt_irrefl (Qpower 10 a)).
  eapply Qlt_le_trans; [exact H | now apply Qpower10_le].
Qed.














Section ScaleBarFacts.

Variable log10_finite : float -> float.

Let ndim_of := ScaleBar.ndim_of log10_finite.
Let pick_length := ScaleBar.pick_length log10_finite.
Let scale_bar_length := ScaleBar.scale_bar_length log10_finite.


Lemma pick_length_deeper (depth depth' : nat) (x0 x1 : float) (v : Z) :
  pick_length depth x0 x1 = Ok v ->
  (depth <= depth')%nat ->
  pick_length depth' x0 x1 = Ok v.
Proof.
  unfold pick_length, ScaleBar.pick_length. intros H Hle.
  destruct (ScaleBar.ndim_of _ _) as [e | nd]; [discriminate |].
  rewrite bind_ok in *.
  destruct (Builtin.round _ _) as [e | r]; [discriminate |].
  rewrite bind_ok in *.
  eapply scale_number_deeper; eassumption.
Qed.

End ScaleBarFacts.

(** A negative value never stops the search: its text starts with the sign,
    so the next call is made. *)
Lemma negative_goes_on (depth : nat) (ndim : Z) (x : float) :
  F64.is_negative x = true ->
  ScaleBar.scale_number (S depth) ndim x
  = (step <- Builtin.pow10 ndim ;; ScaleBar.scale_number depth ndim (x - step)%float).
Proof.
  intros Hneg. simpl.
  replace (ScaleBar.in_heads (Builtin.str_head x)) with false; [reflexivity |].
  unfold Builtin.str_head, F64.is_negative in *.
  destruct (Prim2SF x) as [s | s | | s m e]; try discriminate; subst s; reflexivity.
Qed.





(** C6: the search below one.  A viewport 2500 metres wide has the
    candidate 0.5, which the logarithm places in the decade of tenths: the
    search takes a tenth off five times, reaches a value just above zero
    whose text starts with "2", and returns the integer 0.  A viewport 150
    metres wide has the candidate 0.03: after three steps the value is
    negative, and on a negative value the search always makes the next
    call, so it runs until the interpreter's recursion limit. *)
Theorem search_misses_below_one (log10_finite : float -> float) :
  ScaleBar.ndim_of log10_finite 0.5 = Ok (-1)%Z ->
  ScaleBar.ndim_of log10_finite 0.03 = Ok (-2)%Z ->
  (forall depth, (6 <= depth)%nat ->
     ScaleBar.pick_length log10_finite depth 0 2500 = Ok 0%Z /\
     ScaleBar.scale_bar_length log10_finite depth 0 2500 None = Ok (PyInt 0)) /\
  Spec.nice 0 = false /\
  ScaleBar.pick_length log10_finite 1000 0 150 = Raise RecursionError /\
  (forall depth v, (depth <= 1000)%nat ->
     ScaleBar.pick_length log10_finite depth 0 150 <> Ok v) /\
  (forall fuel ndim x,
      F64.is_negative x = true ->
      ScaleBar.scale_number (S fuel) ndim x
      = (step <- Builtin.pow10 ndim ;;
         ScaleBar.scale_number fuel ndim (x - step)%float)).
Proof.
  intros Hhalf Hsmall.
  assert (Hsix : ScaleBar.pick_length log10_finite 6 0 2500 = Ok 0%Z).
  { unfold ScaleBar.pick_length.
    change ((2500 - 0) / 5000)%float with 0.5%float.
    rewrite Hhalf, bind_ok. vm_compute. reflexivity. }
  assert (Hlimit : ScaleBar.pick_length log10_finite 1000 0 150 = Raise RecursionError).
  { unfold ScaleBar.pick_length.
    change ((150 - 0) / 5000)%float with 0.03%float.
    rewrite Hsmall, bind_ok. vm_compute. reflexivity. }
  split; [| split; [reflexivity | split; [exact Hlimit | split]]].
  - intros depth Hdepth.
    pose proof (pick_length_deeper log10_finite 6 depth 0 2500 0 Hsix Hdepth) as H.
    split; [exact H |]. unfold ScaleBar.scale_bar_length. now rewrite H.
  - intros depth v Hdepth H.
    pose proof (pick_length_deeper log10_finite depth 1000 0 150 v H Hdepth) as C.
    rewrite Hlimit in C. discriminate.
  - intros fuel ndim x. apply negative_goes_on.
Qed.

Lemma search_misses_below_one_witness :
  ScaleBar.pick_length Sample.log10 1000 0 2500 = Ok 0%Z /\
  ScaleBar.scale_bar_length Sample.log10 1000 0 2500 None = Ok (PyInt 0) /\
  ScaleBar.pick_length Sample.log10 1000 0 150 = Raise RecursionError.
Proof.
  destruct (search_misses_below_one Sample.log10) as [Hzero [_ [Hlimit _]]].
  - vm_compute. reflexivity.
  - vm_compute. reflexivity.
  - destruct (Hzero 1000%nat) as [H1 H2]; [repeat constructor |].
    repeat split; assumption.
Defined.



(** * Further properties *)

(** ** Units *)

Lemma str_in_app (s : string) (l1 l2 : list string) :
  str_in s (l1 ++ l2) = str_in s l1 || str_in s l2.
Proof. unfold str_in. apply existsb_app. Qed.

Lemma time_not_distance (s : string) :
  str_in s Units.time_units = true -> str_in s Units.distance_units = false.
Proof.
  intros H. apply str_in_In in H. simpl in H.
  repeat (destruct H as [H | H]; [subst s; reflexivity |]). contradiction.
Qed.

(** X1: the four guards let a pair of tokens through exactly when both are
    time tokens or both are distance tokens of the literal lists. *)
Theorem guards_pass_same_category (units ax_units : string) :
  Units.check units ax_units = None <->
  (In units Units.time_units /\ In ax_units Units.time_units) \/
  (In units Units.distance_units /\ In ax_units Units.distance_units).
Proof.
  rewrite <- !str_in_In. unfold Units.check.
  change Units.known_units with (Units.time_units ++ Units.distance_units).
  rewrite !str_in_app.
  pose proof (time_not_distance units) as Hu.
  pose proof (time_not_distance ax_units) as Ha.
  destruct (str_in units Units.time_units), (str_in units Units.distance_units),
    (str_in ax_units Units.time_units), (str_in ax_units Units.distance_units);
    simpl; try (specialize (Hu eq_refl)); try (specialize (Ha eq_refl));
    try discriminate; split; intros H; try discriminate; try reflexivity;
    try tauto; try (left; split; reflexivity); try (right; split; reflexivity);
    destruct H as [[? ?] | [? ?]]; discriminate.
Qed.

Lemma known_is_lower (s : string) :
  str_in s Units.known_units = true -> lower s = s.
Proof.
  intros H. apply str_in_In in H. simpl in H.
  repeat (destruct H as [H | H]; [subst s; reflexivity |]). contradiction.
Qed.

(** X2: a token that lower-casing changes, that is one with an upper-case
    letter, never passes the guards, in either position. *)
Theorem upper_case_never_passes (units ax_units : string) :
  lower units <> units \/ lower ax_units <> ax_units ->
  exists d, Units.check units ax_units = Some d
            /\ forall digits lw alpha isolines ax ax',
                 Plot.plot_isolines units ax_units digits lw alpha isolines ax
                 <> Ok (Plot.Plotted ax').
Proof.
  intros H.
  assert (Hc : exists d, Units.check units ax_units = Some d).
  { unfold Units.check.
    destruct (str_in units Units.known_units) eqn:Hu;
      destruct (str_in ax_units Units.known_units) eqn:Ha; cbn [negb];
      try (eexists; reflexivity).
    apply known_is_lower in Hu, Ha. exfalso. tauto. }
  destruct Hc as [d Hd]. exists d. split; [exact Hd |].
  intros digits lw alpha isolines ax ax'. unfold Plot.plot_isolines.
  destruct (comprehension _ _); simpl; [discriminate |]. rewrite Hd. discriminate.
Qed.

Lemma upper_case_never_passes_witness :
  exists d, Units.check "Km" "miles" = Some d.
Proof.
  destruct (upper_case_never_passes "Km" "miles") as [d [Hd _]].
  - left. discriminate.
  - exists d. exact Hd.
Defined.

(** Whatever the keys, an operation of the two chains returns an array of
    the same length or raises [OverflowError], which only an integer too
    large for a float does. *)
Lemma comprehension_outcomes {A B : Type} (f : A -> result B) (e : exn) (l : list A) :
  (forall x, (exists y, f x = Ok y) \/ f x = Raise e) ->
  (exists ys, comprehension f l = Ok ys /\ List.length ys = List.length l)
  \/ comprehension f l = Raise e.
Proof.
  intros Hf. induction l as [| x l IH]; simpl.
  - left. now exists [].
  - destruct (Hf x) as [[y Hy] | Hx]; rewrite ?Hy, ?Hx; [| now right].
    destruct IH as [[ys [Hys Hlen]] | Herr]; rewrite ?Hys, ?Herr; [| now right].
    left. exists (y :: ys). simpl. now rewrite Hlen.
Qed.

Lemma py_float_outcomes (z : Z) :
  (exists f, Units.py_float z = Ok f) \/ Units.py_float z = Raise OverflowError.
Proof.
  unfold Units.py_float. destruct (is_infinity (F64.of_Z z)); [now right | left; eauto].
Qed.

Lemma float_op_outcomes (op : float -> float) (a : Units.ndarray1) :
  (exists v, Units.float_op op a = Ok v /\ Units.len v = Units.len a)
  \/ Units.float_op op a = Raise OverflowError.
Proof.
  destruct a as [l | l | l | l]; simpl;
    try (left; eexists; split; [reflexivity |]; simpl; now rewrite length_map).
  destruct (comprehension_outcomes (Units.with_float op) OverflowError l)
    as [[ys [Hys Hlen]] | Herr].
  - intros [f | z]; simpl; [left; eexists; reflexivity |].
    destruct (py_float_outcomes z) as [[f Hf] | Hz]; rewrite ?Hf, ?Hz;
      [left; eexists; reflexivity | now right].
  - rewrite Hys. left. eexists. split; [reflexivity | exact Hlen].
  - rewrite Herr. now right.
Qed.

Lemma div_int_outcomes (a : Units.ndarray1) (k : Z) :
  (exists v, Units.div_int a k = Ok v /\ Units.len v = Units.len a)
  \/ Units.div_int a k = Raise OverflowError.
Proof.
  destruct a as [l | l | l | l];
    try apply (float_op_outcomes (fun x => (x / F64.of_Z k)%float)).
  unfold Units.div_int.
  match goal with
  | |- context [comprehension ?f l] =>
      destruct (comprehension_outcomes f OverflowError l) as [[ys [Hys Hlen]] | Herr]
  end.
  - intros [f | z]; [left; eexists; reflexivity |]. unfold Units.py_truediv.
    cbv zeta. destruct (is_infinity _); [now right | left; eexists; reflexivity].
  - rewrite Hys. left. eexists. split; [reflexivity | exact Hlen].
  - rewrite Herr. now right.
Qed.

Lemma mul_int_len (a : Units.ndarray1) (k : Z) :
  Units.len (Units.mul_int a k) = Units.len a.
Proof. destruct a; simpl; now rewrite length_map. Qed.

Lemma to_base_outcomes (units : string) (ranges : list Z) :
  str_in units Units.known_units = true ->
  (exists v, Units.to_base units ranges = Ok (Some v)
             /\ Units.len v = List.length ranges)
  \/ Units.to_base units ranges = Raise OverflowError.
Proof.
  intros H. pose proof (array_len ranges) as Hl.
  apply str_in_In in H. simpl in H.
  repeat (destruct H as [H | H]; [subst units |]); try contradiction;
    try (left; eexists; split; [reflexivity |];
         now rewrite ?mul_int_len);
    match goal with
    | |- context [Units.to_base ?u _] =>
        change (Units.to_base u ranges)
          with (v <- Units.mul_float (Units.array ranges) 0.3048 ;; Ok (Some v))
        || change (Units.to_base u ranges)
          with (v <- Units.mul_float (Units.array ranges) 0.9144 ;; Ok (Some v))
        || change (Units.to_base u ranges)
          with (v <- Units.mul_float (Units.array ranges) 1609.344 ;; Ok (Some v))
    end;
    match goal with
    | |- context [Units.mul_float ?a ?c] =>
        unfold Units.mul_float;
        destruct (float_op_outcomes (fun x => (x * c)%float) a)
          as [[v [Hv Hlv]] | Herr]; rewrite ?Hv, ?Herr
    end;
    try (now right);
    (left; eexists; split; [reflexivity | congruence]).
Qed.

Lemma from_base_outcomes (ax_units : string) (v : Units.ndarray1) :
  (exists v', Units.from_base ax_units (Some v) = Ok (Some v')
              /\ Units.len v' = Units.len v)
  \/ Units.from_base ax_units (Some v) = Raise OverflowError.
Proof.
  unfold Units.from_base, Units.div_float. cbv zeta.
  repeat match goal with
         | |- context [if ?c then _ else _] => destruct c
         end;
    try (left; eexists; split; reflexivity);
    simpl bind;
    match goal with
    | |- context [Units.div_int v ?k] =>
        destruct (div_int_outcomes v k) as [[v' [Hv Hl]] | Herr]; rewrite ?Hv, ?Herr
    | |- context [Units.float_op ?op v] =>
        destruct (float_op_outcomes op v) as [[v' [Hv Hl]] | Herr]; rewrite ?Hv, ?Herr
    end;
    try (now right);
    (left; eexists; split; [reflexivity | assumption]).
Qed.

(** X3: once the guards have passed, the conversion chains bind [values]
    and keep one value per range.  They raise nothing when the keys fit 64
    bits; whatever the keys, the only error they can raise is the
    [OverflowError] of an integer too large for a float. *)
Theorem checked_units_convert (units ax_units : string) (ranges : list Z) :
  Units.check units ax_units = None ->
  let converted :=
    exists v, Units.convert units ax_units ranges = Ok (Some v)
              /\ Units.len v = List.length ranges
              /\ forall i, (i < List.length ranges)%nat ->
                   exists x, Units.item v i = Ok x in
  (Forall Shape.word64 ranges -> converted) /\
  (converted \/ Units.convert units ax_units ranges = Raise OverflowError).
Proof.
  intros H converted. split.
  - intros Hw. destruct (convert_checked units ax_units ranges H Hw) as [v [Hv Hlen]].
    exists v. repeat split; try assumption.
    intros i Hi. apply item_in_range. lia.
  - unfold Units.check in H.
    destruct (str_in units Units.known_units) eqn:Hu; simpl in H; [| discriminate].
    destruct (to_base_outcomes units ranges Hu) as [[v [Hv Hlen]] | Herr];
      [| right; unfold Units.convert; now rewrite Herr].
    destruct (from_base_outcomes ax_units v) as [[v' [Hv' Hlen']] | Herr];
      [| right; unfold Units.convert; rewrite Hv; exact Herr].
    left. exists v'.
    split; [unfold Units.convert; rewrite Hv; exact Hv' |].
    split; [congruence |].
    intros i Hi. apply item_in_range. lia.
Qed.

Lemma checked_units_convert_witness :
  exists v, Units.convert "hours" "min" [1; 2]%Z = Ok (Some v)
            /\ Units.len v = 2%nat.
Proof.
  destruct (checked_units_convert "hours" "min" [1; 2]%Z) as [Hfit _].
  - reflexivity.
  - destruct Hfit as [v [Hv [Hlen _]]].
    + repeat constructor; unfold Shape.word64; simpl; lia.
    + exists v. split; assumption.
Defined.

Lemma wrap64_fits (z : Z) : Shape.int64 z -> Units.wrap64 z = z.
Proof.
  unfold Shape.int64, Units.wrap64. intros H.
  rewrite Z.mod_small by lia. lia.
Qed.

Lemma map_wrap64_fits (f : Z) (ranges : list Z) :
  Forall (fun r => Shape.int64 (r * f)) ranges ->
  map (fun z => Units.wrap64 (z * f)) ranges = map (fun r => (r * f)%Z) ranges.
Proof.
  induction 1 as [| r ranges Hr _ IH]; simpl; [reflexivity |].
  now rewrite wrap64_fits, IH.
Qed.

Lemma fits_int64_spec (z : Z) : Shape.int64 z -> Units.fits_int64 z = true.
Proof.
  unfold Shape.int64, Units.fits_int64. intros H.
  apply andb_true_intro. split; [apply Z.leb_le | apply Z.ltb_lt]; lia.
Qed.

Lemma array_int64 (ranges : list Z) :
  ranges <> [] -> Forall Shape.int64 ranges ->
  Units.array ranges = Units.IntArray ranges.
Proof.
  intros Hne H. unfold Units.array. destruct ranges as [| z ranges]; [congruence |].
  replace (forallb Units.fits_int64 (z :: ranges)) with true; [reflexivity |].
  symmetry. apply forallb_forall. intros x Hx. apply fits_int64_spec.
  rewrite Forall_forall in H. now apply H.
Qed.

(** The array that the first chain hands on for a unit with an integer
    factor. *)
Lemma to_base_int_factor (units ax_units : string) (f : Z) (ranges : list Z) :
  Shape.int_factor units = Some f ->
  In ax_units (Shape.base_tokens units) ->
  (f = 1 \/ f = 60 \/ f = 3600 \/ f = 1000)%Z /\
  Units.check units ax_units = None /\
  Units.convert units ax_units ranges
  = Ok (Some (if (f =? 1)%Z then Units.array ranges
              else if (f =? 3600)%Z
                   then Units.mul_int (Units.mul_int (Units.array ranges) 60) 60
                   else Units.mul_int (Units.array ranges) f)).
Proof.
  intros Hf Ha. unfold Shape.int_factor in Hf.
  destruct (str_in units ["s"; "seconds"; "m"; "meters"]%string) eqn:E1;
    [| destruct (str_in units ["min"; "minutes"]%string) eqn:E2;
       [| destruct (str_in units ["hours"; "h"]%string) eqn:E3;
          [| destruct (str_in units ["km"; "kilometers"; "kms"]%string) eqn:E4;
             [| discriminate]]]];
    inversion Hf; subst f;
    match goal with E : str_in units _ = true |- _ =>
      apply str_in_In in E; simpl in E;
      repeat (destruct E as [E | E]; [subst units |]); try contradiction
    end;
    simpl in Ha;
    repeat (destruct Ha as [Ha | Ha]; [subst ax_units |]); try contradiction;
    (split; [lia |]); split; reflexivity.
Qed.

(** X4: from seconds, minutes, hours, metres or kilometres to the base unit
    of the category, and as long as the products fit a signed 64-bit
    integer, the values are the array of the ranges times the factor of the
    unit: an integer array of these products, and the empty [float64] array
    when there is no range. *)
Theorem to_base_unit_exact (units ax_units : string) (f : Z) (ranges : list Z) :
  Shape.int_factor units = Some f ->
  In ax_units (Shape.base_tokens units) ->
  Forall (fun r => Shape.int64 (r * f)) ranges ->
  Units.check units ax_units = None /\
  Units.convert units ax_units ranges
  = Ok (Some (Units.array (map (fun r => (r * f)%Z) ranges))) /\
  (ranges <> [] ->
   Units.convert units ax_units ranges
   = Ok (Some (Units.IntArray (map (fun r => (r * f)%Z) ranges)))) /\
  (ranges = [] ->
   Units.convert units ax_units ranges = Ok (Some (Units.FloatArray []))).
Proof.
  intros Hf Ha Hfit.
  destruct (to_base_int_factor units ax_units f ranges Hf Ha) as [Hcases [Hcheck Hrun]].
  split; [exact Hcheck |].
  assert (Hempty : ranges = [] ->
            Units.convert units ax_units ranges = Ok (Some (Units.FloatArray []))).
  { intros ->. rewrite Hrun.
    destruct Hcases as [-> | [-> | [-> | ->]]]; reflexivity. }
  assert (Hint : ranges <> [] ->
            Units.convert units ax_units ranges
            = Ok (Some (Units.IntArray (map (fun r => (r * f)%Z) ranges)))).
  { intros Hne. rewrite Hrun.
    assert (Hin : Forall Shape.int64 ranges).
    { eapply Forall_impl; [| exact Hfit]. unfold Shape.int64. intros r Hr.
      destruct Hcases as [-> | [-> | [-> | ->]]]; lia. }
    rewrite (array_int64 ranges Hne Hin).
    destruct Hcases as [-> | [-> | [-> | ->]]]; simpl; do 3 f_equal.
    - rewrite <- (map_id ranges) at 1. apply map_ext. intros r. lia.
    - now apply map_wrap64_fits.
    - rewrite map_map. apply map_ext_in. intros r Hr.
      rewrite Forall_forall in Hfit. specialize (Hfit r Hr).
      unfold Shape.int64 in Hfit.
      rewrite (wrap64_fits (r * 60)) by (unfold Shape.int64; lia).
      rewrite wrap64_fits by (unfold Shape.int64; lia). lia.
    - now apply map_wrap64_fits. }
  split; [| split; assumption].
  destruct ranges as [| r0 rest].
  - now apply Hempty.
  - rewrite Hint by discriminate. do 2 f_equal. symmetry. apply array_int64.
    + discriminate.
    + apply Forall_map. exact Hfit.
Qed.

Lemma to_base_unit_exact_witness :
  Units.convert "hours" "seconds" [1; 2]%Z
  = Ok (Some (Units.IntArray [3600; 7200]%Z)).
Proof.
  refine (proj1 (proj2 (proj2 (to_base_unit_exact "hours" "seconds" 3600
                                 [1; 2]%Z _ _ _))) _).
  - reflexivity.
  - simpl. tauto.
  - repeat constructor; unfold Shape.int64; simpl; lia.
  - discriminate.
Defined.

(** ** Patches *)

Lemma intensities_table :
  forallb Shape.intensities_fall (seq 1 64) = true.
Proof. vm_compute. reflexivity. Qed.

(** X5: for up to 64 rings the fill intensity of every ring lies strictly
    between 0 and 1, and falls from each ring to the next. *)
Theorem fill_intensity_falls (n i : nat) :
  (1 <= n <= 64)%nat -> (i < n)%nat ->
  (0 <? Plot.get_c i n)%float = true /\
  (Plot.get_c i n <? 1)%float = true /\
  ((S i < n)%nat -> (Plot.get_c (S i) n <? Plot.get_c i n)%float = true).
Proof.
  intros Hn Hi. pose proof intensities_table as T.
  rewrite forallb_forall in T.
  assert (Hin : In n (seq 1 64)) by (apply in_seq; lia).
  specialize (T n Hin). unfold Shape.intensities_fall in T.
  rewrite forallb_forall in T.
  assert (Hi' : In i (seq 0 n)) by (apply in_seq; lia).
  specialize (T i Hi').
  apply andb_prop in T as [T Hstep]. apply andb_prop in T as [Hpos Hone].
  repeat split; try assumption.
  intros Hlt. apply orb_prop in Hstep as [C | C]; [| exact C].
  apply Nat.leb_le in C. lia.
Qed.

Lemma fill_intensity_falls_witness :
  (0 <? Plot.get_c 1 3)%float = true /\ (Plot.get_c 1 3 <? 1)%float = true.
Proof.
  destruct (fill_intensity_falls 3 1) as [H0 [H1 _]].
  - lia.
  - lia.
  - split; assumption.
Defined.

(** A loop whose body appends one patch per index. *)
Lemma for_each_appends {X : Type} (body : list X -> nat -> result (list X))
  (P : nat -> X -> Prop) (m a : nat) (ax : list X) :
  (forall ax i, (a <= i < a + m)%nat ->
                exists p, body ax i = Ok (ax ++ [p]) /\ P i p) ->
  exists ps,
    for_each body (seq a m) ax = Ok (ax ++ ps) /\
    List.length ps = m /\
    forall j, (j < m)%nat -> exists p, nth_error ps j = Some p /\ P (a + j)%nat p.
Proof.
  revert a ax. induction m as [| m IH]; intros a ax Hbody.
  - exists []. simpl. rewrite app_nil_r. repeat split. intros j Hj. lia.
  - destruct (Hbody ax a) as [p [Hp HP]]; [lia |].
    destruct (IH (S a) (ax ++ [p])) as [ps [Hps [Hlen Hnth]]].
    { intros ax' i Hi. apply Hbody. lia. }
    exists (p :: ps). simpl. rewrite Hp. simpl. rewrite Hps, <- app_assoc.
    repeat split; [simpl; now rewrite Hlen |].
    intros [| j] Hj.
    + exists p. rewrite Nat.add_0_r. now split.
    + destruct (Hnth j) as [q [Hq HPq]]; [lia |].
      exists q. replace (a + S j)%nat with (S a + j)%nat by lia. now split.
Qed.

Lemma plot_ring_dressed (ax_units : string) (label_rounding : Z)
  (contour_lines alpha : float) (polygons : list Np.ndarray2)
  (v : Units.ndarray1) (n : nat) (ax : list Plot.patch) (i : nat) :
  Forall (fun r => r <> []) polygons ->
  Units.len v = List.length polygons ->
  (i < List.length polygons)%nat ->
  exists p,
    Plot.plot_ring ax_units label_rounding contour_lines alpha polygons (Some v) n ax i
    = Ok (ax ++ [p])
    /\ Shape.dressed ax_units label_rounding contour_lines alpha v n i p.
Proof.
  intros Hrings Hlen Hi. unfold Plot.plot_ring.
  destruct (item_in_range v i) as [hi Hhi]; [lia |].
  destruct (nth_error polygons i) as [poly |] eqn:Hpoly;
    [| apply nth_error_None in Hpoly; lia].
  assert (Hne : poly <> []).
  { apply nth_error_In in Hpoly. rewrite Forall_forall in Hrings. now apply Hrings. }
  destruct i as [| j]; simpl Nat.eqb; cbv iota.
  - unfold getitem. rewrite Hpoly. simpl.
    rewrite boundary_codes_nonempty by assumption. simpl.
    unfold Spec.boundary at 1. rewrite make_path_moveto
      by (change (Plot.MOVETO :: repeat Plot.LINETO (List.length poly - 1))
            with (Spec.boundary poly); now apply boundary_length).
    simpl. rewrite Hhi. simpl. eexists. split; [reflexivity |].
    unfold Shape.dressed. simpl. now rewrite Hhi.
  - replace (S j - 1)%nat with j by lia.
    destruct (nth_error polygons j) as [prev |] eqn:Hprev;
      [| apply nth_error_None in Hprev; lia].
    assert (Hne' : prev <> []).
    { apply nth_error_In in Hprev. rewrite Forall_forall in Hrings. now apply Hrings. }
    destruct (item_in_range v j) as [lo Hlo]; [lia |].
    unfold getitem. rewrite Hpoly, Hprev. simpl.
    rewrite patch_between_nonempty by assumption. simpl.
    rewrite Hlo. simpl. rewrite Hhi. simpl.
    eexists. split; [reflexivity |].
    unfold Shape.dressed. simpl. now rewrite Hhi, Hlo.
Qed.

(** X6: every patch of the loop carries the line width and opacity of the
    call, the intensity of its position, and a label from the converted
    value before it (0.0 for the first) to its own: the lower end of each
    label is the upper end of the label before. *)
Theorem labels_chain
  (ax_units : string) (label_rounding : Z) (contour_lines alpha : float)
  (polygons : list Np.ndarray2) (v : Units.ndarray1) (n : nat)
  (ax : list Plot.patch) :
  Forall (fun r => r <> []) polygons ->
  Units.len v = List.length polygons ->
  exists ps,
    Plot.plot_loop ax_units label_rounding contour_lines alpha polygons (Some v) n ax
    = Ok (ax ++ ps) /\
    (forall i, (i < List.length polygons)%nat ->
       exists p, nth_error ps i = Some p
                 /\ Shape.dressed ax_units label_rounding contour_lines alpha v n i p) /\
    (forall i p q, nth_error ps i = Some p -> nth_error ps (S i) = Some q ->
       Plot.label_lo (Plot.patch_label q) = Plot.label_hi (Plot.patch_label p)).
Proof.
  intros Hrings Hlen.
  destruct (for_each_appends
              (Plot.plot_ring ax_units label_rounding contour_lines alpha
                 polygons (Some v) n)
              (Shape.dressed ax_units label_rounding contour_lines alpha v n)
              (List.length polygons) 0 ax) as [ps [Hrun [Hcount Hat]]].
  { intros ax' i Hi. apply plot_ring_dressed; try assumption. lia. }
  exists ps. split; [exact Hrun |]. split; [exact Hat |].
  intros i p q Hp Hq.
  assert (Hi : (S i < List.length polygons)%nat).
  { rewrite <- Hcount. apply nth_error_Some. congruence. }
  destruct (Hat i) as [p' [Hp' Dp]]; [lia |].
  destruct (Hat (S i) Hi) as [q' [Hq' Dq]].
  rewrite Hp in Hp'. rewrite Hq in Hq'.
  inversion Hp'; inversion Hq'; subst p' q'.
  unfold Shape.dressed in Dp, Dq. cbn [Nat.add] in Dp, Dq.
  destruct Dp as [_ [_ [_ [_ [_ [Hhi _]]]]]].
  destruct Dq as [_ [_ [_ [_ [_ [_ Hlo]]]]]].
  rewrite <- Hhi in Hlo. now inversion Hlo.
Qed.

Lemma labels_chain_witness :
  exists ps,
    Plot.plot_loop "minutes" 1 0 0.3 [Sample.ring_a; Sample.ring_b]
      (Some (Units.IntArray [600; 1200]%Z)) 2 [] = Ok ps.
Proof.
  destruct (labels_chain "minutes" 1 0 0.3 [Sample.ring_a; Sample.ring_b]
              (Units.IntArray [600; 1200]%Z) 2 []) as [ps [Hrun _]].
  - repeat constructor; discriminate.
  - reflexivity.
  - exists ps. exact Hrun.
Defined.

Lemma comprehension_length {A B : Type} (f : A -> result B) (xs : list A) (ys : list B) :
  comprehension f xs = Ok ys -> List.length ys = List.length xs.
Proof.
  revert ys. induction xs as [| x xs IH]; simpl; intros ys H.
  - now inversion H.
  - destruct (f x); simpl in H; [discriminate |].
    destruct (comprehension f xs) as [e | zs]; simpl in H; [discriminate |].
    inversion H. simpl. now rewrite (IH zs eq_refl).
Qed.

Lemma plot_ring_appends (ax_units : string) (label_rounding : Z)
  (contour_lines alpha : float) (polygons : list Np.ndarray2)
  (values : option Units.ndarray1) (n : nat) (ax ax' : list Plot.patch) (i : nat) :
  Plot.plot_ring ax_units label_rounding contour_lines alpha polygons values n ax i
  = Ok ax' ->
  exists p, ax' = ax ++ [p].
Proof.
  unfold Plot.plot_ring. intros H.
  destruct (i =? 0)%nat; simpl in H;
    repeat match type of H with
           | context [match ?c with inl _ => _ | inr _ => _ end] =>
               destruct c; simpl in H; try discriminate
           end;
    inversion H; eauto.
Qed.

Lemma for_each_plot_appends (ax_units : string) (label_rounding : Z)
  (contour_lines alpha : float) (polygons : list Np.ndarray2)
  (values : option Units.ndarray1) (n : nat) (idx : list nat)
  (ax ax' : list Plot.patch) :
  for_each (Plot.plot_ring ax_units label_rounding contour_lines alpha
              polygons values n) idx ax = Ok ax' ->
  exists ps, ax' = ax ++ ps /\ List.length ps = List.length idx.
Proof.
  revert ax. induction idx as [| i idx IH]; simpl; intros ax H.
  - inversion H. exists []. now rewrite app_nil_r.
  - destruct (Plot.plot_ring _ _ _ _ _ _ _ ax i) as [e | ax1] eqn:Hstep;
      simpl in H; [discriminate |].
    apply plot_ring_appends in Hstep as [p ->].
    destruct (IH _ H) as [ps [-> Hlen]].
    exists (p :: ps). rewrite <- app_assoc. simpl. now rewrite Hlen.
Qed.

(** X7: whatever the mapping, a call that plots leaves the patches that
    were on the axes where they were and adds one patch per key after
    them. *)
Theorem plotting_only_appends
  (units ax_units : string) (label_rounding : Z) (contour_lines alpha : float)
  (isolines : Dict.t Np.ndarray2) (ax ax' : list Plot.patch) :
  Plot.plot_isolines units ax_units label_rounding contour_lines alpha isolines ax
  = Ok (Plot.Plotted ax') ->
  exists ps, ax' = ax ++ ps /\ List.length ps = Dict.len isolines.
Proof.
  unfold Plot.plot_isolines. intros H.
  destruct (comprehension _ (Dict.keys isolines)) as [e | polygons] eqn:Hp;
    simpl in H; [discriminate |].
  destruct (Units.check units ax_units); [discriminate |].
  destruct (Units.convert _ _ _) as [e | values]; simpl in H; [discriminate |].
  destruct (Plot.plot_loop _ _ _ _ _ _ _ ax) as [e | ax1] eqn:Hloop;
    simpl in H; [discriminate |].
  inversion H; subst ax1. unfold Plot.plot_loop in Hloop.
  apply for_each_plot_appends in Hloop as [ps [-> Hlen]].
  exists ps. split; [reflexivity |].
  rewrite Hlen, length_seq. apply comprehension_length in Hp.
  rewrite Hp. unfold Dict.keys, Dict.len. apply length_map.
Qed.

Lemma plotting_only_appends_witness :
  exists ax',
    Plot.plot_isolines "seconds" "minutes" 1 0 0.3 Sample.ascending []
    = Ok (Plot.Plotted ax')
    /\ List.length ax' = 2%nat.
Proof.
  eexists. split; [reflexivity |].
  destruct (plotting_only_appends "seconds" "minutes" 1 0 0.3 Sample.ascending
              [] _ eq_refl) as [ps [Heq Hlen]].
  rewrite Heq. exact Hlen.
Defined.

Lemma comprehension_swap_empty (rings : list Np.ndarray2) :
  Exists (fun r => r = []) rings ->
  comprehension Plot.swap_columns rings = Raise IndexError.
Proof.
  induction rings as [| r rings IH]; intros H; [inversion H |].
  simpl. destruct r as [| p r]; [reflexivity |].
  rewrite swap_columns_nonempty by discriminate. simpl.
  inversion H as [? ? Hr | ? ? Hrest]; subst; [discriminate |].
  now rewrite (IH Hrest).
Qed.

(** X8: the polygons are built before the units are looked at, so a mapping
    with an empty ring raises [IndexError] whatever the unit tokens are,
    also where the guards would have turned the call away. *)
Theorem empty_ring_raises_first
  (units ax_units : string) (label_rounding : Z) (contour_lines alpha : float)
  (isolines : Dict.t Np.ndarray2) (ax : list Plot.patch) :
  NoDup (Dict.keys isolines) ->
  Exists (fun r => r = []) (map snd isolines) ->
  Plot.plot_isolines units ax_units label_rounding contour_lines alpha isolines ax
  = Raise IndexError.
Proof.
  intros Hnd Hempty. unfold Plot.plot_isolines.
  rewrite polygons_of_dict by assumption.
  now rewrite comprehension_swap_empty.
Qed.

Lemma empty_ring_raises_first_witness :
  Plot.plot_isolines "parsecs" "minutes" 1 0 0.3
    [(600%Z, Sample.ring_a); (1200%Z, [])] []
  = Raise IndexError.
Proof.
  apply empty_ring_raises_first.
  - repeat constructor; simpl; intuition discriminate.
  - right. left. reflexivity.
Defined.

Lemma moves_boundary (ring : Np.ndarray2) : Shape.moves (Spec.boundary ring) = 1%nat.
Proof.
  unfold Spec.boundary. simpl. f_equal.
  induction (List.length ring - 1)%nat as [| k IH]; simpl; [reflexivity | exact IH].
Qed.

Lemma moves_app (c1 c2 : list Plot.code) :
  Shape.moves (c1 ++ c2) = (Shape.moves c1 + Shape.moves c2)%nat.
Proof.
  induction c1 as [| [] c1 IH]; simpl; [reflexivity | now rewrite IH | exact IH].
Qed.

(** X9: [patch_between] raises [IndexError] exactly when one of the two
    polygons is empty.  Otherwise the path constructor accepts what it is
    given: a path with as many vertices and codes as the two polygons have
    points, two of the codes being moves. *)
Theorem patch_between_outcomes (poly1 poly2 : Np.ndarray2) :
  (poly1 = [] \/ poly2 = [] -> Plot.patch_between poly1 poly2 = Raise IndexError) /\
  (poly1 <> [] -> poly2 <> [] ->
   exists p, Plot.patch_between poly1 poly2 = Ok p
             /\ List.length (Plot.vertices p)
                = (List.length poly1 + List.length poly2)%nat
             /\ List.length (Plot.codes p) = List.length (Plot.vertices p)
             /\ Shape.moves (Plot.codes p) = 2%nat).
Proof.
  split.
  - intros [-> | ->]; [reflexivity |].
    destruct poly1 as [| p poly1]; reflexivity.
  - intros H1 H2. rewrite patch_between_nonempty by assumption.
    eexists. split; [reflexivity |]. unfold Spec.annulus.
    cbn [Plot.vertices Plot.codes].
    rewrite !length_app, length_rev, !boundary_length by assumption.
    rewrite moves_app, !moves_boundary. repeat split.
Qed.

Lemma patch_between_outcomes_witness :
  exists p, Plot.patch_between Sample.ring_b Sample.ring_a = Ok p
            /\ Shape.moves (Plot.codes p) = 2%nat.
Proof.
  destruct (proj2 (patch_between_outcomes Sample.ring_b Sample.ring_a))
    as [p [Hp [_ [_ Hm]]]].
  - discriminate.
  - discriminate.
  - exists p. split; assumption.
Defined.

Lemma swap_swap (a : Np.ndarray2) : map Spec.swap (map Spec.swap a) = a.
Proof.
  induction a as [| [x y] a IH]; simpl; [reflexivity | now rewrite IH].
Qed.

(** X10: exchanging the columns fails, with [IndexError], on the empty
    ring and on nothing else: every other ring comes back with the two
    coordinates of each point exchanged, and exchanging twice gives the
    ring back. *)
Theorem swap_columns_round_trip (a : Np.ndarray2) :
  (a = [] -> Plot.swap_columns a = Raise IndexError) /\
  (a <> [] ->
   Plot.swap_columns a = Ok (map (fun p => (snd p, fst p)) a)) /\
  (forall b, Plot.swap_columns a = Ok b ->
     Plot.swap_columns b = Ok a /\ List.length b = List.length a).
Proof.
  split; [| split].
  - intros ->. reflexivity.
  - intros Hne. now apply swap_columns_nonempty.
  - intros b Hb. apply swap_columns_inv in Hb as [Hne ->].
    rewrite swap_columns_nonempty.
    + rewrite swap_swap, length_map. split; reflexivity.
    + destruct a; [congruence | discriminate].
Qed.

Lemma swap_columns_round_trip_witness :
  Plot.swap_columns Sample.ring_a
  = Ok [(13.25, 52.5); (13.25, 52.75); (13.5, 52.75)]%float /\
  Plot.swap_columns (map Spec.swap Sample.ring_a) = Ok Sample.ring_a.
Proof.
  destruct (swap_columns_round_trip Sample.ring_a) as [_ [Hswap Hback]].
  split.
  - apply Hswap. discriminate.
  - exact (proj1 (Hback _ eq_refl)).
Defined.

(** ** The extent, again *)

Lemma for_each_cons {A S : Type} (body : S -> A -> result S) (x : A) (xs : list A) (s : S) :
  for_each body (x :: xs) s = (s' <- body s x ;; for_each body xs s').
Proof. reflexivity. Qed.

Lemma for_each_scan_empty (all_poly : list Np.ndarray2) (b : Extent.bounds) :
  Exists (fun r => r = []) all_poly ->
  for_each Extent.scan_poly all_poly b = Raise IndexError.
Proof.
  revert b. induction all_poly as [| r all_poly IH]; intros b H; [inversion H |].
  rewrite for_each_cons. destruct r as [| p r]; [reflexivity |].
  rewrite scan_poly_value. simpl.
  inversion H as [? ? Hr | ? ? Hrest]; subst; [discriminate |].
  now apply IH.
Qed.

Lemma for_each_scan_nonempty (all_poly : list Np.ndarray2) (b : Extent.bounds) :
  Forall (fun r => r <> []) all_poly ->
  exists b', for_each Extent.scan_poly all_poly b = Ok b'.
Proof.
  intros H. revert b. induction H as [| r all_poly Hr _ IH]; intros b.
  - exists b. reflexivity.
  - destruct r as [| p r]; [congruence |].
    rewrite for_each_cons, scan_poly_value. simpl. apply IH.
Qed.

(** X11: [find_extent] raises [IndexError] when some polygon is empty and
    nothing else; when none is, it returns four values, for every buffer. *)
Theorem find_extent_outcomes (all_poly : list Np.ndarray2) (buffer : float) :
  (Exists (fun r => r = []) all_poly ->
   Extent.find_extent all_poly buffer = Raise IndexError) /\
  (Forall (fun r => r <> []) all_poly ->
   exists extent, Extent.find_extent all_poly buffer = Ok extent
                  /\ List.length extent = 4%nat).
Proof.
  unfold Extent.find_extent, Extent.scan. split.
  - intros H. now rewrite for_each_scan_empty.
  - intros H. destruct (for_each_scan_nonempty all_poly Extent.initial H) as [b Hb].
    rewrite Hb. simpl. eexists. split; reflexivity.
Qed.

Lemma find_extent_outcomes_witness :
  Extent.find_extent [Sample.ring_a; []] 0.1 = Raise IndexError.
Proof.
  apply (proj1 (find_extent_outcomes [Sample.ring_a; []] 0.1)).
  right. left. reflexivity.
Defined.

Lemma nan_spec (x : float) : is_nan x = true -> Prim2SF x = S754_nan.
Proof.
  intros H. destruct (Prim2SF x) as [s | s | | s m e] eqn:E; try reflexivity;
    assert (C : is_nan x = false) by (apply not_nan_spec; rewrite E; discriminate);
    congruence.
Qed.

Lemma ltb_nan (x y : float) :
  is_nan x = true \/ is_nan y = true -> (x <? y)%float = false.
Proof.
  rewrite ltb_spec. unfold SFltb. intros [H | H]; apply nan_spec in H; rewrite H.
  - reflexivity.
  - destruct (Prim2SF x); reflexivity.
Qed.

Lemma leb_nan (x y : float) :
  is_nan x = true \/ is_nan y = true -> (x <=? y)%float = false.
Proof.
  rewrite leb_spec. unfold SFleb. intros [H | H]; apply nan_spec in H; rewrite H.
  - reflexivity.
  - destruct (Prim2SF x); reflexivity.
Qed.

Lemma fold_maximum_nan (l : list float) (x : float) :
  is_nan x = true \/ Exists (fun y => is_nan y = true) l ->
  is_nan (fold_left Np.maximum l x) = true.
Proof.
  revert x. induction l as [| y l IH]; intros x H; simpl.
  - destruct H as [H | H]; [exact H | inversion H].
  - apply IH. unfold Np.maximum.
    destruct (is_nan x) eqn:Hx.
    + rewrite orb_true_r. now left.
    + rewrite orb_false_r. destruct H as [H | H]; [discriminate |].
      inversion H as [? ? Hy | ? ? Hl]; subst; [| now right].
      rewrite leb_nan by now left. now left.
Qed.

Lemma fold_minimum_nan (l : list float) (x : float) :
  is_nan x = true \/ Exists (fun y => is_nan y = true) l ->
  is_nan (fold_left Np.minimum l x) = true.
Proof.
  revert x. induction l as [| y l IH]; intros x H; simpl.
  - destruct H as [H | H]; [exact H | inversion H].
  - apply IH. unfold Np.minimum.
    destruct (is_nan x) eqn:Hx.
    + rewrite orb_true_r. now left.
    + rewrite orb_false_r. destruct H as [H | H]; [discriminate |].
      inversion H as [? ? Hy | ? ? Hl]; subst; [| now right].
      rewrite leb_nan by now right. now left.
Qed.

(** X12: a NaN anywhere in a column of a polygon makes both reductions of
    that column NaN, which no comparison accepts: the polygon then leaves
    the two bounds of that axis as they were, without any error. *)
Theorem nan_column_is_skipped (b : Extent.bounds) (Poly : Np.ndarray2) :
  Poly <> [] ->
  exists b',
    Extent.scan_poly b Poly = Ok b' /\
    (Exists (fun y => is_nan y = true) (map fst Poly) ->
     Extent.lon_max b' = Extent.lon_max b /\ Extent.lon_min b' = Extent.lon_min b) /\
    (Exists (fun y => is_nan y = true) (map snd Poly) ->
     Extent.lat_max b' = Extent.lat_max b /\ Extent.lat_min b' = Extent.lat_min b).
Proof.
  intros Hne. destruct Poly as [| p Poly]; [congruence |].
  rewrite scan_poly_value. eexists. split; [reflexivity |]. simpl.
  split; intros H.
  - assert (H' : is_nan (fst p) = true
                 \/ Exists (fun y => is_nan y = true) (map fst Poly))
      by (inversion H; [now left | now right]).
    rewrite (ltb_nan (Extent.lon_max b)) by (right; now apply fold_maximum_nan).
    rewrite (ltb_nan _ (Extent.lon_min b)) by (left; now apply fold_minimum_nan).
    split; reflexivity.
  - assert (H' : is_nan (snd p) = true
                 \/ Exists (fun y => is_nan y = true) (map snd Poly))
      by (inversion H; [now left | now right]).
    rewrite (ltb_nan (Extent.lat_max b)) by (right; now apply fold_maximum_nan).
    rewrite (ltb_nan _ (Extent.lat_min b)) by (left; now apply fold_minimum_nan).
    split; reflexivity.
Qed.

Lemma nan_column_is_skipped_witness :
  exists b',
    Extent.scan_poly Extent.initial [(1, 2); (nan, 3)]%float = Ok b' /\
    (Exists (fun y => is_nan y = true) (map fst [(1, 2); (nan, 3)]%float) ->
     Extent.lon_max b' = neg_infinity /\ Extent.lon_min b' = infinity) /\
    (Exists (fun y => is_nan y = true) (map snd [(1, 2); (nan, 3)]%float) ->
     Extent.lat_max b' = neg_infinity /\ Extent.lat_min b' = infinity).
Proof.
  apply (nan_column_is_skipped Extent.initial [(1, 2); (nan, 3)]%float).
  discriminate.
Defined.

(** ** The decoder, again *)

Lemma setitem_length {V : Type} (d : Dict.t V) (k : Z) (v : V) :
  (List.length (Dict.setitem d k v) <= S (List.length d))%nat.
Proof.
  induction d as [| [k' v'] d IH]; simpl; [lia |].
  destruct (k' =? k)%Z; simpl; lia.
Qed.

Section DecoderOutcomes.

Variable iter_decode : string -> result (list Decoder.latlng).

Let ring_of := Decoder.ring_of iter_decode.
Let decode_isoline := Decoder.decode_isoline iter_decode.
Let decode := Decoder.here_isolines_to_WGS84 iter_decode.

Lemma decode_loop_ok (response : list Decoder.isoline) (d0 d : Dict.t Np.ndarray2) :
  for_each decode_isoline response d0 = Ok d ->
  (forall iso, In iso response -> exists r, ring_of iso = Ok r) /\
  (Dict.len d <= Dict.len d0 + List.length response)%nat.
Proof.
  revert d0. induction response as [| iso response IH]; intros d0 H.
  - inversion H; subst. split; [intros ? [] | lia].
  - rewrite for_each_cons in H.
    unfold decode_isoline at 1, Decoder.decode_isoline in H.
    fold ring_of in H.
    destruct (ring_of iso) as [e | r] eqn:Hr; simpl in H; [discriminate |].
    apply IH in H as [Hall Hlen]. split.
    + intros i [<- | Hi]; [now exists r | now apply Hall].
    + pose proof (setitem_length d0 (Decoder.range_value iso) r) as Hs.
      unfold Dict.len in *. simpl. lia.
Qed.

Lemma decode_loop_stops (pre post : list Decoder.isoline) (iso : Decoder.isoline)
  (e : exn) (d0 : Dict.t Np.ndarray2) :
  (forall i, In i pre -> exists r, ring_of i = Ok r) ->
  ring_of iso = Raise e ->
  for_each decode_isoline (pre ++ iso :: post) d0 = Raise e.
Proof.
  revert d0. induction pre as [| i pre IH]; intros d0 Hpre Hiso.
  - simpl app. rewrite for_each_cons.
    unfold decode_isoline at 1, Decoder.decode_isoline. fold ring_of.
    rewrite Hiso. reflexivity.
  - simpl app. rewrite for_each_cons.
    unfold decode_isoline at 1, Decoder.decode_isoline. fold ring_of.
    destruct (Hpre i) as [r Hr]; [now left |]. rewrite Hr. simpl.
    apply IH; [| assumption]. intros j Hj. apply Hpre. now right.
Qed.

(** X13: the decoder returns a mapping exactly when the first polygon of
    every entry of the response decodes. *)
Theorem decode_succeeds_iff_entries_decode (response : list Decoder.isoline) :
  (exists d, decode response = Ok d) <->
  (forall iso, In iso response -> exists r, ring_of iso = Ok r).
Proof.
  split.
  - intros [d Hd]. unfold decode, Decoder.here_isolines_to_WGS84 in Hd.
    now apply decode_loop_ok in Hd.
  - intros H. destruct (decode_total iter_decode response H) as [d [Hd _]].
    now exists d.
Qed.

(** X14: the decoder stops at the first entry that does not decode and
    raises that entry's error, whatever follows it; an entry without
    polygons raises [IndexError]. *)
Theorem decode_raises_first_failure (pre post : list Decoder.isoline)
  (iso : Decoder.isoline) :
  (forall i, In i pre -> exists r, ring_of i = Ok r) ->
  (forall e, ring_of iso = Raise e -> decode (pre ++ iso :: post) = Raise e) /\
  (Decoder.polygons_outer iso = [] -> decode (pre ++ iso :: post) = Raise IndexError).
Proof.
  intros Hpre. split.
  - intros e He. now apply decode_loop_stops.
  - intros Hnone. apply decode_loop_stops; [assumption |].
    unfold ring_of, Decoder.ring_of. now rewrite Hnone.
Qed.

End DecoderOutcomes.

Lemma decode_raises_first_failure_witness :
  Decoder.here_isolines_to_WGS84 Sample.codec
    ([Decoder.Isoline 600 ["A"%string]]
       ++ Decoder.Isoline 1200 ["Z"%string] :: [Decoder.Isoline 1800 []])
  = Raise ValueError.
Proof.
  apply (decode_raises_first_failure Sample.codec
           [Decoder.Isoline 600 ["A"%string]] [Decoder.Isoline 1800 []]
           (Decoder.Isoline 1200 ["Z"%string])).
  - intros i [<- | []]. eexists. reflexivity.
  - reflexivity.
Defined.

(** ** From the response to the axes *)

(** X15: a response that decodes, through a codec that yields no empty
    polyline and with range values that fit 64 bits, gives a mapping that
    [plot_isolines] accepts under any pair of units that passes the unit
    checks: the call adds one patch per distinct range value after the
    patches already on the axes, at most one per entry of the response. *)
Theorem decoded_response_plots
  (iter_decode : string -> result (list Decoder.latlng))
  (units ax_units : string) (label_rounding : Z) (contour_lines alpha : float)
  (response : list Decoder.isoline) (d : Dict.t Np.ndarray2)
  (ax : list Plot.patch) :
  (forall outer ps, iter_decode outer = Ok ps -> ps <> []) ->
  Forall Shape.word64 (map Decoder.range_value response) ->
  Decoder.here_isolines_to_WGS84 iter_decode response = Ok d ->
  Units.check units ax_units = None ->
  exists ps,
    Plot.plot_isolines units ax_units label_rounding contour_lines alpha d ax
    = Ok (Plot.Plotted (ax ++ ps))
    /\ List.length ps = Dict.len d
    /\ (Dict.len d <= List.length response)%nat.
Proof.
  intros Hcodec Hwords Hd Hcheck.
  destruct (decode_rings iter_decode response d Hd) as [Hnd Hrings].
  assert (Hkeys : Forall Shape.word64 (Dict.keys d)).
  { apply Forall_forall. intros k Hk. apply in_map_iff in Hk as [[k' r] [<- Hin]].
    destruct (Hrings k' r Hin) as [iso [_ [_ [Hiso [Hval _]]]]].
    rewrite Forall_forall in Hwords. apply Hwords. simpl. rewrite <- Hval.
    now apply in_map. }
  assert (Hne : Forall (fun r => r <> []) (map snd d)).
  { apply Forall_forall. intros ring Hin. apply in_map_iff in Hin as [[k r] [<- Hin]].
    destruct (Hrings k r Hin) as [iso [outer [ps [_ [_ [_ [Hps ->]]]]]]].
    apply Hcodec in Hps. simpl. destruct ps; [congruence | discriminate]. }
  destruct (convert_checked units ax_units (Dict.keys d) Hcheck Hkeys)
    as [v [Hv Hlen]].
  destruct (plot_loop_ok ax_units label_rounding contour_lines alpha
              (map (map Spec.swap) (map snd d)) v (List.length (Dict.keys d))
              (swapped_nonempty _ Hne)
              ltac:(rewrite Hlen; unfold Dict.keys; now rewrite !length_map)
              ax) as [ps [Hps [Hlenps _]]].
  exists ps. unfold Plot.plot_isolines.
  rewrite polygons_of_dict by assumption.
  rewrite comprehension_swap_ok by assumption. simpl.
  rewrite Hcheck, Hv. simpl. rewrite Hps. simpl.
  split; [reflexivity |]. split.
  - rewrite Hlenps. unfold Dict.len. now rewrite !length_map.
  - unfold Decoder.here_isolines_to_WGS84 in Hd.
    apply decode_loop_ok in Hd as [_ Hd]. exact Hd.
Qed.

Lemma decoded_response_plots_witness :
  exists ps,
    Plot.plot_isolines "seconds" "minutes" 1 0 0.3
      [(600%Z, Sample.ring_a); (1200%Z, Sample.ring_b);
       (1800%Z, [(51, 12); (54, 12); (54, 15)]%float)] []
    = Ok (Plot.Plotted ([] ++ ps))
    /\ List.length ps = 3%nat /\ (3 <= 3)%nat.
Proof.
  apply (decoded_response_plots Sample.codec "seconds" "minutes" 1 0 0.3
           Sample.three_isolines
           [(600%Z, Sample.ring_a); (1200%Z, Sample.ring_b);
            (1800%Z, [(51, 12); (54, 12); (54, 15)]%float)] []).
  - intros outer ps. unfold Sample.codec.
    repeat (destruct (_ =? _)%string; [intros H; inversion H; discriminate |]).
    discriminate.
  - repeat constructor; unfold Shape.word64; simpl; lia.
  - reflexivity.
  - reflexivity.
Defined.

(** ** The scale bar, again *)

Lemma in_heads_positive (x : float) :
  ScaleBar.in_heads (Builtin.str_head x) = true ->
  exists m e, Prim2SF x = S754_finite false m e.
Proof.
  unfold Builtin.str_head.
  destruct (Prim2SF x) as [s | s | | s m e].
  - destruct s; intros H; vm_compute in H; discriminate.
  - destruct s; intros H; vm_compute in H; discriminate.
  - intros H; vm_compute in H; discriminate.
  - destruct s.
    + intros H; vm_compute in H; discriminate.
    + intros _. now exists m, e.
Qed.

Lemma int_of_positive (x : float) (m : positive) (e v : Z) :
  Prim2SF x = S754_finite false m e -> Builtin.int x = Ok v -> (0 <= v)%Z.
Proof.
  intros Hx H. unfold Builtin.int in H. rewrite Hx in H.
  cbv zeta in H. unfold cond_Zopp in H.
  assert (Hp : (0 < Qpower 2 e)%Q) by (apply Qpower_0_lt; reflexivity).
  remember (Qpower 2 e) as p eqn:Ep. clear Ep.
  injection H as Hv. subst v. apply Z.quot_pos; [| lia].
  change (0 <= Zpos m * Qnum p)%Z.
  destruct p as [n d]. unfold Qlt in Hp. cbn [Qnum Qden] in Hp. cbn [Qnum].
  apply Z.mul_nonneg_nonneg; lia.
Qed.

Lemma scale_number_succ (depth : nat) (ndim : Z) (x : float) :
  ScaleBar.scale_number (S depth) ndim x
  = if ScaleBar.in_heads (Builtin.str_head x) then Builtin.int x
    else (step <- Builtin.pow10 ndim ;;
          ScaleBar.scale_number depth ndim (x - step)%float).
Proof. reflexivity. Qed.

Lemma scale_number_nonneg (depth : nat) (ndim : Z) (x : float) (v : Z) :
  ScaleBar.scale_number depth ndim x = Ok v -> (0 <= v)%Z.
Proof.
  revert x. induction depth as [| depth IH]; intros x H; [discriminate |].
  rewrite scale_number_succ in H.
  destruct (ScaleBar.in_heads (Builtin.str_head x)) eqn:Hh.
  - destruct (in_heads_positive x Hh) as [m [e Hx]].
    eapply int_of_positive; eassumption.
  - destruct (Builtin.pow10 ndim) as [err | step]; [discriminate |].
    eapply IH. exact H.
Qed.

(** X16: the search walks downward, yet it never returns a negative
    length: a length is returned only from a candidate whose numeral
    starts with 1, 2 or 5, which a signed numeral does not.  And a length is
    chosen only when the fifth-thousandth of the viewport width is a
    positive finite number. *)
Theorem chosen_length_not_negative
  (log10_finite : float -> float) (depth : nat) (x0 x1 : float) (v : Z) :
  ScaleBar.pick_length log10_finite depth x0 x1 = Ok v ->
  (exists m e, Prim2SF ((x1 - x0) / 5000)%float = S754_finite false m e)
  /\ (0 <= v)%Z.
Proof.
  unfold ScaleBar.pick_length. cbv zeta. intros H. split.
  - unfold ScaleBar.ndim_of, Np.log10 in H.
    destruct (Prim2SF ((x1 - x0) / 5000)%float) as [s | s | | s m e];
      try destruct s; try discriminate.
    now exists m, e.
  - destruct (ScaleBar.ndim_of _ _) as [err | ndim]; [discriminate |].
    change (inr ndim) with (Ok ndim) in H. rewrite bind_ok in H.
    destruct (Builtin.round _ _) as [err | r]; [discriminate |].
    change (inr r) with (Ok r) in H. rewrite bind_ok in H.
    eapply scale_number_nonneg. exact H.
Qed.

Lemma chosen_length_not_negative_witness :
  (exists m e, Prim2SF ((65000 - 0) / 5000)%float = S754_finite false m e)
  /\ (0 <= 10)%Z.
Proof.
  apply (chosen_length_not_negative Sample.log10 1000 0 65000 10).
  vm_compute. reflexivity.
Defined.

Lemma sub_self (x : float) (q : Q) :
  F64.to_Q x = Some q -> Prim2SF (x - x)%float = S754_zero false.
Proof.
  unfold F64.to_Q. rewrite sub_spec.
  destruct (Prim2SF x) as [s | s | | s m e]; try discriminate; intros _.
  - destruct s; reflexivity.
  - unfold SF64sub, SFsub. cbv zeta. rewrite Z.sub_diag. reflexivity.
Qed.

(** X17: a viewport of no width, at any finite position, has no scale bar
    length: the logarithm of the zero candidate is infinite and its
    conversion to an integer raises [OverflowError], both when no length
    is given and when the given length is zero. *)
Theorem zero_width_viewport_overflows
  (log10_finite : float -> float) (depth : nat) (x : float) (q : Q) :
  F64.to_Q x = Some q ->
  ScaleBar.scale_bar_length log10_finite depth x x None = Raise OverflowError /\
  ScaleBar.scale_bar_length log10_finite depth x x (Some 0%float)
  = Raise OverflowError.
Proof.
  intros Hx.
  assert (H : ScaleBar.pick_length log10_finite depth x x = Raise OverflowError).
  { unfold ScaleBar.pick_length. cbv zeta.
    assert (Hc : exists s, Prim2SF ((x - x) / 5000)%float = S754_zero s).
    { rewrite div_spec, (sub_self x q Hx).
      destruct (Prim2SF 5000) as [s | s | | s m e] eqn:E;
        try (vm_compute in E; discriminate).
      eexists. reflexivity. }
    destruct Hc as [s Hc]. unfold ScaleBar.ndim_of, Np.log10. rewrite Hc.
    reflexivity. }
  unfold ScaleBar.scale_bar_length.
  change (0 =? 0)%float with true. cbv iota. rewrite H. split; reflexivity.
Qed.

Lemma zero_width_viewport_overflows_witness :
  ScaleBar.scale_bar_length Sample.log10 1000 250000 250000 None
  = Raise OverflowError /\
  ScaleBar.scale_bar_length Sample.log10 1000 250000 250000 (Some 0%float)
  = Raise OverflowError.
Proof.
  eapply (zero_width_viewport_overflows Sample.log10 1000 250000).
  vm_compute. reflexivity.
Defined.

(** ** The request builders *)

Lemma string_app_assoc (s1 s2 s3 : string) :
  ((s1 ++ s2) ++ s3 = s1 ++ (s2 ++ s3))%string.
Proof. induction s1 as [| c s1 IH]; simpl; congruence. Qed.

Lemma string_app_nil_r (s : string) : (s ++ "")%string = s.
Proof. induction s as [| c s IH]; simpl; congruence. Qed.










Section RequestFacts.

Variable float_repr : float -> string.

Let str := Request.str float_repr.
Let collect := Request.collect float_repr.

Lemma drop_last_snoc (s : string) (c : ascii) :
  Request.drop_last (s ++ String c EmptyString) = s.
Proof.
  induction s as [| c' s IH]; simpl; [reflexivity |].
  rewrite IH. destruct s; reflexivity.
Qed.

Lemma drop_last_app (s1 s2 : string) :
  s2 <> EmptyString ->
  Request.drop_last (s1 ++ s2) = (s1 ++ Request.drop_last s2)%string.
Proof.
  intros H. induction s1 as [| c s1 IH]; simpl; [reflexivity |].
  rewrite IH. destruct (s1 ++ s2)%string eqn:E; [| reflexivity].
  destruct s1; simpl in E; [contradiction | discriminate].
Qed.

Lemma collect_from (rs : list number) (acc : string) :
  fold_left (fun values r => (values ++ str r ++ ",")%string) rs acc
  = (acc ++ collect (Request.Many rs))%string.
Proof.
  unfold collect, Request.collect. fold str. revert acc.
  induction rs as [| r rs IH]; intros acc; simpl.
  - now rewrite string_app_nil_r.
  - rewrite IH, (IH (str r ++ ",")%string). now rewrite string_app_assoc.
Qed.

Lemma collect_cons (r : number) (rs : list number) :
  collect (Request.Many (r :: rs))
  = (str r ++ "," ++ collect (Request.Many rs))%string.
Proof.
  unfold collect at 1, Request.collect. fold str. simpl.
  rewrite collect_from. now rewrite string_app_assoc.
Qed.

Lemma comma_tail_nonempty (s t : string) : (s ++ "," ++ t)%string <> EmptyString.
Proof. destruct s; discriminate. Qed.

(** X19: the loop over the range values and the removal of the last
    character leave the numerals joined by commas, with no comma after the
    last and nothing at all for an empty list; a lone number gives the
    same text as the list that holds only it. *)
Theorem range_values_are_comma_joined (rs : list number) (r : number) :
  Request.drop_last (collect (Request.Many rs)) = String.concat "," (map str rs)
  /\ Request.drop_last (collect (Request.One r))
     = Request.drop_last (collect (Request.Many [r])).
Proof.
  split; [| reflexivity].
  induction rs as [| r1 rs IH]; [reflexivity |].
  rewrite collect_cons. destruct rs as [| r2 rs].
  - simpl. change (str r1 ++ ",")%string with (str r1 ++ String "," EmptyString)%string.
    apply drop_last_snoc.
  - rewrite <- string_app_assoc.
    rewrite drop_last_app by (rewrite collect_cons; apply comma_tail_nonempty).
    rewrite IH, string_app_assoc. reflexivity.
Qed.

(** X20: the isoline request needs the first two entries of
    [origin_point] and nothing more of it: with fewer it raises
    [IndexError], and any further entry is ignored. *)
Theorem origin_point_first_two (origin_point : list number)
  (transport_mode : string) (rv : Request.range_values)
  (range_type apiKey : string) (departure_time : option string) (reverse : bool) :
  ((List.length origin_point < 2)%nat ->
   Request.here_isoline_request float_repr origin_point transport_mode rv
     range_type apiKey departure_time reverse = Raise IndexError) /\
  (forall p0 p1 rest, origin_point = p0 :: p1 :: rest ->
   exists url,
     Request.here_isoline_request float_repr origin_point transport_mode rv
       range_type apiKey departure_time reverse = Ok url /\
     Request.here_isoline_request float_repr [p0; p1] transport_mode rv
       range_type apiKey departure_time reverse = Ok url).
Proof.
  split.
  - intros H. destruct origin_point as [| p0 [| p1 rest]]; simpl in H; try lia;
      reflexivity.
  - intros p0 p1 rest ->. eexists. split; reflexivity.
Qed.

End RequestFacts.

Lemma origin_point_first_two_witness :
  Request.here_isoline_request (fun _ => "52.5"%string) [PyFloat 52.5] "car"
    (Request.One (PyInt 600)) "time" "KEY" None false = Raise IndexError.
Proof.
  apply (origin_point_first_two (fun _ => "52.5"%string) [PyFloat 52.5] "car"
           (Request.One (PyInt 600)) "time" "KEY" None false).
  simpl. lia.
Defined.

(** * The coordinate order, from the response to the axes *)

(** C10: every ring of the decoder's result holds the points that the codec
    decoded for its entry, in their order and latitude first.
    [plot_isolines] puts them on the axes longitude first: the vertices of
    patch [i] start with the points of ring [i], each with its two
    coordinates exchanged, in the same number and order, and for the first
    patch there is nothing after them.  [find_extent], which reads the
    first column as longitude, returns on the decoder's rings as they are
    an extent whose longitude bounds enclose the latitudes and whose
    latitude bounds enclose the longitudes: the bounds of the exchanged
    rings with their roles exchanged. *)
Theorem coordinate_order_handoff
  (iter_decode : string -> result (list Decoder.latlng))
  (units ax_units : string) (label_rounding : Z)
  (contour_lines alpha buffer : float)
  (response : list Decoder.isoline) (d : Dict.t Np.ndarray2)
  (ax : list Plot.patch) :
  Decoder.here_isolines_to_WGS84 iter_decode response = Ok d ->
  (forall k ring, In (k, ring) d ->
     exists iso outer ps,
       In iso response /\ Decoder.range_value iso = k /\
       nth_error (Decoder.polygons_outer iso) 0 = Some outer /\
       iter_decode outer = Ok ps /\
       List.length ring = List.length ps /\
       forall j pt, nth_error ps j = Some pt ->
         nth_error ring j = Some (Decoder.lat pt, Decoder.lng pt)) /\
  (Forall (fun r => r <> []) (map snd d) ->
   Forall Shape.word64 (Dict.keys d) ->
   Units.check units ax_units = None ->
   exists regions,
     Plot.plot_isolines units ax_units label_rounding contour_lines alpha d ax
     = Ok (Plot.Plotted (ax ++ regions)) /\
     List.length regions = Dict.len d /\
     forall i ring, nth_error (map snd d) i = Some ring ->
       exists p tail,
         nth_error regions i = Some p /\
         Plot.vertices (Plot.patch_path p)
         = map (fun pt => (snd pt, fst pt)) ring ++ tail /\
         (i = 0%nat -> tail = [])) /\
  (Forall (fun r => r <> []) (map snd d) ->
   Forall Spec.no_nan (map snd d) ->
   exists b,
     Extent.scan (map snd d) = Ok b /\
     Extent.find_extent (map snd d) buffer = Ok (Extent.padded b buffer) /\
     Extent.scan (map (map (fun pt => (snd pt, fst pt))) (map snd d))
     = Ok (Extent.Bounds (Extent.lat_max b) (Extent.lat_min b)
                         (Extent.lon_max b) (Extent.lon_min b)) /\
     forall k ring pt, In (k, ring) d ->
       In (Decoder.lat pt, Decoder.lng pt) ring ->
       (Extent.lon_min b <=? Decoder.lat pt)%float = true /\
       (Decoder.lat pt <=? Extent.lon_max b)%float = true /\
       (Extent.lat_min b <=? Decoder.lng pt)%float = true /\
       (Decoder.lng pt <=? Extent.lat_max b)%float = true).
Proof.
  intros Hd. destruct (decode_rings iter_decode response d Hd) as [Hnd Hrings].
  split; [| split].
  - intros k ring Hin.
    destruct (Hrings k ring Hin) as [iso [outer [ps [Hiso [Hk [Ho [Hps ->]]]]]]].
    exists iso, outer, ps. repeat split; try assumption.
    + unfold Decoder.rows. apply length_map.
    + intros j pt Hj. unfold Decoder.rows.
      now apply (map_nth_error (fun p => (Decoder.lat p, Decoder.lng p))).
  - intros Hne Hkeys Hcheck.
    destruct (convert_checked units ax_units (Dict.keys d) Hcheck Hkeys)
      as [v [Hv Hlen]].
    set (polygons := map (map Spec.swap) (map snd d)).
    assert (Hsize : Units.len v = List.length polygons).
    { rewrite Hlen. unfold polygons, Dict.keys. now rewrite !length_map. }
    destruct (plot_loop_ok ax_units label_rounding contour_lines alpha
                polygons v (List.length (Dict.keys d))
                (swapped_nonempty _ Hne) Hsize ax)
      as [regions [Hrun [Hcount Hat]]].
    exists regions. split; [| split].
    + unfold Plot.plot_isolines.
      rewrite polygons_of_dict by assumption.
      rewrite comprehension_swap_ok by assumption. fold polygons.
      rewrite bind_ok, Hcheck, Hv, bind_ok. unfold polygons in Hrun |- *.
      rewrite Hrun. reflexivity.
    + rewrite Hcount. unfold polygons, Dict.len. now rewrite !length_map.
    + intros i ring Hi.
      assert (Hpoly : nth_error polygons i = Some (map Spec.swap ring))
        by (unfold polygons; now apply map_nth_error).
      assert (Hlt : (i < List.length polygons)%nat)
        by (apply nth_error_Some; rewrite Hpoly; discriminate).
      destruct (Hat i Hlt) as [p [Hp Hr]].
      destruct i as [| j].
      * rewrite (region_first polygons _ Hpoly) in Hr. inversion Hr as [Hpath].
        exists p, []. split; [exact Hp |]. split; [| reflexivity].
        rewrite <- Hpath. simpl. now rewrite app_nil_r.
      * destruct (nth_error polygons j) as [inner |] eqn:Hj;
          [| apply nth_error_None in Hj; lia].
        rewrite (region_next polygons j _ inner Hpoly Hj) in Hr.
        inversion Hr as [Hpath].
        exists p, (rev inner). split; [exact Hp |]. split; [| discriminate].
        rewrite <- Hpath. reflexivity.
  - intros Hne Hnan.
    destruct (for_each_scan_nonempty (map snd d) Extent.initial Hne) as [b Hb].
    exists b. split; [exact Hb |]. split; [| split].
    + unfold Extent.find_extent. fold (Extent.scan (map snd d)) in Hb.
      now rewrite Hb.
    + change (map (map (fun pt => (snd pt, fst pt))) (map snd d))
        with (map (map Spec.swap) (map snd d)).
      unfold Extent.scan.
      change Extent.initial with (Spec.flip Extent.initial).
      rewrite for_each_scan_flip. now rewrite Hb.
    + intros k ring pt Hin Hpt.
      apply (scan_encloses (map snd d) b Hnan Hb ring (Decoder.lat pt, Decoder.lng pt));
        [| exact Hpt].
      apply in_map_iff. now exists (k, ring).
Qed.

Lemma coordinate_order_handoff_witness :
  let d := [(600%Z, Sample.ring_a); (1200%Z, Sample.ring_b);
            (1800%Z, [(51, 12); (54, 12); (54, 15)]%float)] in
  (exists regions,
      Plot.plot_isolines "seconds" "minutes" 1 0 0.3 d []
      = Ok (Plot.Plotted ([] ++ regions))
      /\ List.length regions = 3%nat) /\
  (exists b,
      Extent.scan (map snd d) = Ok b /\
      Extent.find_extent (map snd d) 0.1 = Ok (Extent.padded b 0.1) /\
      Extent.lon_max b = 54%float /\ Extent.lat_max b = 15%float).
Proof.
  intros d.
  destruct (coordinate_order_handoff Sample.codec "seconds" "minutes" 1 0 0.3 0.1
              Sample.three_isolines d [] eq_refl) as [_ [Hplot Hscan]].
  split.
  - destruct Hplot as [regions [Hrun [Hcount _]]].
    + repeat constructor; discriminate.
    + repeat constructor; unfold Shape.word64; simpl; lia.
    + reflexivity.
    + exists regions. split; [exact Hrun | exact Hcount].
  - destruct Hscan as [b [Hb [Hfind _]]].
    + repeat constructor; discriminate.
    + repeat (constructor; try (split; reflexivity)).
    + exists b. split; [exact Hb |]. split; [exact Hfind |].
      assert (E : Ok b = Ok (Extent.Bounds 54 51 15 12))
        by (rewrite <- Hb; vm_compute; reflexivity).
      inversion E. split; reflexivity.
Defined.
